(** * Buddy-system allocator: a shallow embedding of [buddySystem.cxx]

    The allocator manages a reserved region as a binary tree of [Buddy]
    nodes.  The embedding follows the C++ source: [size_t] values are
    integers with 64-bit wrap-around written out, pointers into the region
    are integers, a [Buddy*] into the tree is a path from the root, and a
    call that does not return normally is [NoReturn]. *)

From Stdlib Require Import ZArith List Bool Lia.
Import ListNotations.
Local Open Scope Z_scope.

(** ** Constants of the source *)

Definition MAX_MEMORY_OFFSET : Z := 1048576.
Definition BASE_SIZE : Z := 65536.

(** [size_t] is a 64-bit unsigned integer. *)
Definition SIZE_T_MOD : Z := 2 ^ 64.

(** ** Calls that may fail to return

    [bytesToSize] is a [while] loop that does not terminate on every
    [size_t]; every caller inherits that.  [Returns v] is a normal return
    with value [v]; [NoReturn] is a call that never returns (or leaves the
    defined behaviour of the language on the way). *)

Inductive Run (A : Type) : Type :=
| Returns (v : A)
| NoReturn.
Arguments Returns {A} v.
Arguments NoReturn {A}.

Definition bind {A B : Type} (c : Run A) (k : A -> Run B) : Run B :=
  match c with
  | Returns v => k v
  | NoReturn => NoReturn
  end.

Notation "x <- c ;; k" := (bind c (fun x => k))
  (at level 61, c at next level, right associativity).

(** ** Size conversions *)

(** [sizeToBytes]: [BASE_SIZE * pow(2,size)] computed in [double] and
    converted to [size_t].  The product is an exact power of two; for a
    negative [size] the conversion truncates.  The model is exact while
    the result fits [size_t], that is for [size <= 47]. *)
Definition sizeToBytes (size : Z) : Z :=
  if 0 <=? size then BASE_SIZE * 2 ^ size else BASE_SIZE / 2 ^ (- size).

(** The loop of [bytesToSize]: [size] is an [int], [num] a [size_t] whose
    doubling wraps around. *)
Fixpoint bytesToSize_loop (fuel : nat) (size num numBytes : Z) : Run Z :=
  match fuel with
  | O => NoReturn
  | S fuel' =>
      if num <? numBytes
      then bytesToSize_loop fuel' (size + 1) ((num * 2) mod SIZE_T_MOD) numBytes
      else Returns (size - 16)
  end.

(** After 64 doublings [num] has wrapped to 0 and stays there, so a run that
    has not left the loop within 65 tests never leaves it (lemmas
    [bytesToSize_loop_more_fuel] and [bytesToSize_loop_diverges]). *)
Definition bytesToSize (numBytes : Z) : Run Z :=
  bytesToSize_loop 65 0 1 numBytes.

(** ** The tree

    One [Buddy] object per block.  The source keeps a [terminal] flag and
    two child pointers that are set and cleared together ([split], [merge],
    the constructor): [Leaf] is an object with [terminal = 0] and no
    children, [Split] one with [terminal = 1] and both children.  The field
    [memLength] stays in the object when it is split. *)

Inductive Buddy : Type :=
| Leaf (memStart memLength size : Z)
| Split (memStart memLength size : Z) (left right : Buddy).

(** Constructor [Buddy::Buddy(memBegin, width)]. *)
Definition new_Buddy (memBegin width : Z) : Buddy := Leaf memBegin 0 width.

Definition getLocation (n : Buddy) : Z :=
  match n with Leaf a _ _ | Split a _ _ _ _ => a end.

Definition getLength (n : Buddy) : Z :=
  match n with Leaf _ m _ | Split _ m _ _ _ => m end.

Definition getSize (n : Buddy) : Z :=
  match n with Leaf _ _ s | Split _ _ s _ _ => s end.

Definition getMaxLength (n : Buddy) : Z := sizeToBytes (getSize n).

Definition isTerminal (n : Buddy) : bool :=
  match n with Leaf _ _ _ => false | Split _ _ _ _ _ => true end.

Definition setLength (n : Buddy) (numBytes : Z) : Buddy :=
  match n with
  | Leaf a _ s => Leaf a numBytes s
  | Split a _ s l r => Split a numBytes s l r
  end.

(** [Buddy::split]: two fresh children of [size - 1]; [terminal = 1]. *)
Definition split (n : Buddy) : Buddy :=
  let a := getLocation n in
  let s := getSize n in
  Split a (getLength n) s
        (new_Buddy a (s - 1))
        (new_Buddy (a + sizeToBytes (s - 1)) (s - 1)).

(** [Buddy::merge]: both subtrees are deleted; [terminal = 0]. *)
Definition merge (n : Buddy) : Buddy :=
  Leaf (getLocation n) (getLength n) (getSize n).

(** ** Pointers into the tree

    A [Buddy*] obtained from the root ([check]'s result, [location] in
    [allocate]) is the path of child selections that leads to the object. *)

Inductive Dir : Type := L | R.

Definition Path : Type := list Dir.

Fixpoint getNode (t : Buddy) (p : Path) {struct p} : option Buddy :=
  match p, t with
  | [], _ => Some t
  | L :: p', Split _ _ _ l _ => getNode l p'
  | R :: p', Split _ _ _ _ r => getNode r p'
  | _ :: _, Leaf _ _ _ => None
  end.

(** A method with side effects called through the pointer [p]. *)
Fixpoint modify (p : Path) (f : Buddy -> Buddy) (t : Buddy) {struct p} : Buddy :=
  match p, t with
  | [], _ => f t
  | L :: p', Split a m s l r => Split a m s (modify p' f l) r
  | R :: p', Split a m s l r => Split a m s l (modify p' f r)
  | _ :: _, Leaf _ _ _ => t
  end.

(** ** [Buddy::check]

    The result [None] is the null pointer.  The source evaluates
    [left->check(numBytes)] (and [right->check(numBytes)]) twice, once in
    the test and once for the value; the calls have no side effect, so one
    evaluation stands for both. *)
Fixpoint check (t : Buddy) (numBytes : Z) : Run (option Path) :=
  minSize <- bytesToSize numBytes ;;
  if (getSize t <? minSize) || negb (getLength t =? 0)
  then Returns None
  else
    match t with
    | Leaf _ _ _ => Returns (Some [])
    | Split _ _ _ l r =>
        cl <- check l numBytes ;;
        match cl with
        | Some p => Returns (Some (L :: p))
        | None =>
            cr <- check r numBytes ;;
            match cr with
            | Some p => Returns (Some (R :: p))
            | None => Returns None
            end
        end
    end.

(** ** [Buddy::allocate] *)

(** The backing memory, byte by address, and [memcpy] into it. *)
Definition Heap : Type := Z -> Z.

Definition memcpy (h : Heap) (dst src n : Z) : Heap :=
  fun x => if (dst <=? x) && (x <? dst + n) then h (src + (x - dst)) else h x.

(** The [while] loop of [allocate].  [numBytes*2] is a [size_t] product;
    [&&] evaluates [bytesToSize] only when the first test holds. *)
Fixpoint allocate_loop (fuel : nat) (root : Buddy) (location : Path)
         (numBytes : Z) : Run (Buddy * Path) :=
  match fuel with
  | O => NoReturn
  | S fuel' =>
      match getNode root location with
      | None => NoReturn
      | Some node =>
          if getMaxLength node >? (numBytes * 2) mod SIZE_T_MOD
          then
            k <- bytesToSize (getMaxLength node) ;;
            if k >? 0
            then allocate_loop fuel' (modify location split root)
                               (location ++ [L]) numBytes
            else Returns (root, location)
          else Returns (root, location)
      end
  end.

(** Every round lowers [size] by one and the loop stops at [size <= 0], so
    [size + 1] tests are enough (lemma [allocate_loop_more_fuel]). *)
Definition loop_fuel (root : Buddy) (location : Path) : nat :=
  match getNode root location with
  | Some node => S (Z.to_nat (getSize node))
  | None => O
  end.

(** [allocate] returns the pointer ([None] is [NULL]; the region does not
    start at address 0), and leaves the tree and the backing memory in a new
    state.  [location] always points into the tree; the branch for a path
    that leads nowhere is there for totality only. *)
Definition allocate (root : Buddy) (heap : Heap) (numBytes data : Z)
  : Run (option Z * Buddy * Heap) :=
  c <- check root numBytes ;;
  match c with
  | None => Returns (None, root, heap)
  | Some candidate =>
      r <- allocate_loop (loop_fuel root candidate) root candidate numBytes ;;
      let '(root1, location) := r in
      match getNode root1 location with
      | None => NoReturn
      | Some node =>
          Returns (Some (getLocation node),
                   modify location (fun n => setLength n numBytes) root1,
                   memcpy heap (getLocation node) data numBytes)
      end
  end.

(** ** [Buddy::release] *)

(** The merge condition tested at the end of [release]. *)
Definition merge_condition (l r : Buddy) : bool :=
  (getLength r =? 0) && negb (isTerminal r)
  && (getLength l =? 0) && negb (isTerminal l).

Fixpoint release (t : Buddy) (memToRelease : Z) : bool * Buddy :=
  match t with
  | Leaf a m s =>
      if memToRelease =? a then (true, Leaf a 0 s) else (false, Leaf a m s)
  | Split a m s l r =>
      let '(returnValue, l', r') :=
        if memToRelease =? a then
          if negb (isTerminal l) then (true, setLength l 0, r)
          else let (b, l1) := release l memToRelease in (b, l1, r)
        else if memToRelease =? getLocation r then
          if negb (isTerminal r) then (true, l, setLength r 0)
          else let (b, r1) := release r memToRelease in (b, l, r1)
        else
          let (bl, l1) := release l memToRelease in
          if bl then (true, l1, r)
          else let (br, r1) := release r memToRelease in (br, l1, r1)
      in
      if merge_condition l' r'
      then (returnValue, merge (Split a m s l' r'))
      else (returnValue, Split a m s l' r')
  end.

(** ** Observations on a tree *)

(** The unsplit leaves, left to right, as (memStart, memLength, size). *)
Fixpoint leaves (t : Buddy) : list (Z * Z * Z) :=
  match t with
  | Leaf a m s => [(a, m, s)]
  | Split _ _ _ l r => leaves l ++ leaves r
  end.

Definition leaf_length (lf : Z * Z * Z) : Z := snd (fst lf).
Definition leaf_start (lf : Z * Z * Z) : Z := fst (fst lf).
Definition leaf_capacity (lf : Z * Z * Z) : Z := sizeToBytes (snd lf).

(** The occupied leaves: those with [memLength <> 0]. *)
Definition occupied (t : Buddy) : list (Z * Z * Z) :=
  filter (fun lf => negb (leaf_length lf =? 0)) (leaves t).

Definition total_used (t : Buddy) : Z :=
  fold_right (fun lf acc => leaf_length lf + acc) 0 (leaves t).

(** The leaf whose block starts at [p], if any. *)
Definition leaf_at (t : Buddy) (p : Z) : option (Z * Z * Z) :=
  find (fun lf => leaf_start lf =? p) (leaves t).

(** ** Shape of the trees the allocator builds

    [wf a s t]: [t] manages the block of order [s] at address [a]; children
    halve the block; a leaf holds at most its capacity; a split node holds
    nothing. *)
Fixpoint wf (a s : Z) (t : Buddy) : Prop :=
  match t with
  | Leaf a' m s' =>
      a' = a /\ s' = s /\ 0 <= s /\ 0 <= m <= sizeToBytes s
  | Split a' m s' l r =>
      a' = a /\ s' = s /\ 1 <= s /\ m = 0
      /\ wf a (s - 1) l /\ wf (a + sizeToBytes (s - 1)) (s - 1) r
  end.

(** No split node has two free unsplit children. *)
Fixpoint merged (t : Buddy) : Prop :=
  match t with
  | Leaf _ _ _ => True
  | Split _ _ _ l r => merge_condition l r = false /\ merged l /\ merged r
  end.

(** Every split node has [memLength = 0]. *)
Fixpoint split_nodes_empty (t : Buddy) : Prop :=
  match t with
  | Leaf _ _ _ => True
  | Split _ m _ l r => m = 0 /\ split_nodes_empty l /\ split_nodes_empty r
  end.

(** ** Reachable states

    The states of a tree built by [new Buddy(base, N)] and driven by
    [allocate] and [release] calls that return.  [lo] is the least request
    size the caller issues: [reachable 0] admits every [size_t], and
    [reachable 1] is a caller that never asks for zero bytes (the
    interactive driver of the source, which insists on [1 <= j]). *)
Section Reachable.
Variables base N : Z.

Inductive reachable (lo : Z) : Buddy -> Prop :=
| reach_new : reachable lo (new_Buddy base N)
| reach_allocate (t : Buddy) (heap : Heap) (numBytes data : Z)
                 (ret : option Z) (t' : Buddy) (heap' : Heap) :
    reachable lo t ->
    lo <= numBytes < SIZE_T_MOD ->
    allocate t heap numBytes data = Returns (ret, t', heap') ->
    reachable lo t'
| reach_release (t : Buddy) (memToRelease : Z) (ret : bool) (t' : Buddy) :
    reachable lo t ->
    release t memToRelease = (ret, t') ->
    reachable lo t'.
End Reachable.

(** A free unsplit leaf, as the merge condition tests it on each child. *)
Definition is_free_leaf (n : Buddy) : bool :=
  (getLength n =? 0) && negb (isTerminal n).

(** ** The specification's wording, for comparison with the code *)

(** order_for_size: "smallest non-negative integer [k] such that
    [MIN_BLOCK_SIZE * 2^k >= bytes]". *)
Definition order_for_size_spec (bytes k : Z) : Prop :=
  0 <= k
  /\ bytes <= BASE_SIZE * 2 ^ k
  /\ forall j, 0 <= j -> bytes <= BASE_SIZE * 2 ^ j -> k <= j.

(** find_candidate: "the left-most unsplit, unoccupied leaf whose capacity is
    >= [bytes]", over the leaves taken left to right with their paths. *)
Fixpoint leaf_paths (t : Buddy) : list (Path * Buddy) :=
  match t with
  | Leaf _ _ _ => [([], t)]
  | Split _ _ _ l r =>
      map (fun x => (L :: fst x, snd x)) (leaf_paths l)
      ++ map (fun x => (R :: fst x, snd x)) (leaf_paths r)
  end.

Definition qualifies (bytes : Z) (n : Buddy) : bool :=
  (getLength n =? 0) && (bytes <=? getMaxLength n).

Definition find_candidate (t : Buddy) (bytes : Z) : option Path :=
  option_map fst (find (fun x => qualifies bytes (snd x)) (leaf_paths t)).

(** release: "returns false when the given address does not correspond to
    any currently-occupied leaf". *)
Definition occupied_at (t : Buddy) (p : Z) : Prop :=
  exists lf, In lf (occupied t) /\ leaf_start lf = p.

(** Some unsplit leaf, occupied or not, starts at [p]. *)
Definition leaf_starts_at (t : Buddy) (p : Z) : Prop :=
  exists lf, In lf (leaves t) /\ leaf_start lf = p.

(** Two leaves never share an address: the blocks
    [[start, start + capacity)] of the leaves at two different positions of
    the left-to-right list have no address in common. *)
Definition in_block (lf : Z * Z * Z) (x : Z) : Prop :=
  leaf_start lf <= x < leaf_start lf + leaf_capacity lf.

Definition blocks_disjoint (t : Buddy) : Prop :=
  forall (i j : nat) (lf1 lf2 : Z * Z * Z) (x : Z),
    i <> j ->
    nth_error (leaves t) i = Some lf1 ->
    nth_error (leaves t) j = Some lf2 ->
    ~ (in_block lf1 x /\ in_block lf2 x).

(** A scratch heap for the examples. *)
Definition heap0 : Heap := fun _ => 0.

(** The length recorded for the address [x]: the [memLength] of the unsplit
    leaf whose block holds [x] (0 outside the region). *)
Definition holds (x : Z) (lf : Z * Z * Z) : bool :=
  (leaf_start lf <=? x) && (x <? leaf_start lf + leaf_capacity lf).

Definition length_in (ls : list (Z * Z * Z)) (x : Z) : Z :=
  match find (holds x) ls with
  | Some lf => leaf_length lf
  | None => 0
  end.

Definition used_at (t : Buddy) (x : Z) : Z := length_in (leaves t) x.

(** A series of top-level [release] calls. *)
Definition release_all (t : Buddy) (ps : list Z) : Buddy :=
  fold_left (fun u p => snd (release u p)) ps t.

(** The node the path [p] leads to, or the unsplit leaf at which the path
    ends early: the node that currently manages the block [p] names. *)
Fixpoint descend (t : Buddy) (p : Path) {struct p} : Buddy :=
  match p, t with
  | L :: p', Split _ _ _ l _ => descend l p'
  | R :: p', Split _ _ _ _ r => descend r p'
  | _, _ => t
  end.

(** Start and order of the block the path [p] names under a block of order
    [s] at [a]. *)
Fixpoint path_block (a s : Z) (p : Path) : Z * Z :=
  match p with
  | [] => (a, s)
  | L :: p' => path_block a (s - 1) p'
  | R :: p' => path_block (a + sizeToBytes (s - 1)) (s - 1) p'
  end.

(** The tree of the reference configuration ([main]: order 4 over a region
    of 1 MiB), here with the region at address 4096. *)
Definition fresh : Buddy := new_Buddy 4096 4.

(** The tree of the scenario of the specification after the requests of
    70000 and 500000 bytes. *)
Definition two_blocks : Buddy :=
  Split 4096 0 4
        (Split 4096 0 3
               (Split 4096 0 2 (Leaf 4096 70000 1) (Leaf 135168 0 1))
               (Leaf 266240 0 2))
        (Leaf 528384 500000 3).

(** The tree a request of 0 bytes leaves behind on [fresh]. *)
Definition after_zero_bytes : Buddy :=
  Split 4096 0 4
        (Split 4096 0 3
               (Split 4096 0 2
                      (Split 4096 0 1 (Leaf 4096 0 0) (Leaf 69632 0 0))
                      (Leaf 135168 0 1))
               (Leaf 266240 0 2))
        (Leaf 528384 0 3).

(** The tree after a request of 0 bytes and then one of 70000 bytes on
    [fresh]: a live block next to two free sibling leaves. *)
Definition zero_then_block : Buddy :=
  Split 4096 0 4
        (Split 4096 0 3
               (Split 4096 0 2
                      (Split 4096 0 1 (Leaf 4096 0 0) (Leaf 69632 0 0))
                      (Leaf 135168 70000 1))
               (Leaf 266240 0 2))
        (Leaf 528384 0 3).

(** ** Closed forms used in the proofs *)

(** [check] once [bytesToSize numBytes] has returned [minSize]. *)
Fixpoint check_from (minSize : Z) (t : Buddy) : option Path :=
  if (getSize t <? minSize) || negb (getLength t =? 0)
  then None
  else
    match t with
    | Leaf _ _ _ => Some []
    | Split _ _ _ l r =>
        match check_from minSize l with
        | Some p => Some (L :: p)
        | None =>
            match check_from minSize r with
            | Some p => Some (R :: p)
            | None => None
            end
        end
    end.

(** What [allocate] makes of a free leaf of order [s] at [a]: the chain of
    splits along left children, ending in the leaf that takes the data. *)
Fixpoint place (fuel : nat) (a s numBytes : Z) : Buddy :=
  match fuel with
  | O => Leaf a numBytes s
  | S fuel' =>
      if (sizeToBytes s >? numBytes * 2) && (s >? 0)
      then Split a 0 s (place fuel' a (s - 1) numBytes)
                 (Leaf (a + sizeToBytes (s - 1)) 0 (s - 1))
      else Leaf a numBytes s
  end.

(** * Further observations, beyond the claims *)

(** A leaf with [memLength = 0]. *)
Definition leaf_free (lf : Z * Z * Z) : Prop := leaf_length lf = 0.

(** The sum of the lengths of a list of leaves ([total_used] on a tree). *)
Definition sum_lengths (ls : list (Z * Z * Z)) : Z :=
  fold_right (fun lf acc => leaf_length lf + acc) 0 ls.

(** A caller's series of calls on one tree and its backing memory. *)
Inductive Call : Type :=
| CallAllocate (numBytes data : Z)
| CallRelease (memToRelease : Z).

Fixpoint run (calls : list Call) (t : Buddy) (heap : Heap) : Run (Buddy * Heap) :=
  match calls with
  | [] => Returns (t, heap)
  | CallAllocate numBytes data :: rest =>
      r <- allocate t heap numBytes data ;;
      run rest (snd (fst r)) (snd r)
  | CallRelease p :: rest => run rest (snd (release t p)) heap
  end.

Definition sizes_in_range (calls : list Call) : Prop :=
  forall numBytes data, In (CallAllocate numBytes data) calls ->
                        0 <= numBytes < SIZE_T_MOD.

(** The sum of the capacities of a list of leaves. *)
Definition sum_capacities (ls : list (Z * Z * Z)) : Z :=
  fold_right (fun lf acc => leaf_capacity lf + acc) 0 ls.

(** ** [Buddy::printTree]

    What the traversal writes, line by line: the helper text of the first
    call ([width == 0]), and for each node one line made of [width] columns
    of indentation followed by [memLength] in a field of 7.  Both children
    exist exactly when the node is split. *)
Inductive Output : Type :=
| Header
| Line (width memLength : Z).

Fixpoint printTree (t : Buddy) (width : Z) : list Output :=
  (if width =? 0 then [Header] else [])
  ++ match t with
     | Leaf _ m _ => [Line width m]
     | Split _ m _ l r =>
         printTree l (width + 7) ++ [Line width m] ++ printTree r (width + 7)
     end.

(** The lines that show a length other than 0. *)
Definition nonzero_lines (out : list Output) : list Output :=
  filter (fun o => match o with
                   | Header => false
                   | Line _ m => negb (m =? 0)
                   end) out.

(** ** The driver's table of addresses ([main])

    [memLocations] is an array of 16 pointers, 0 for the null pointer.  The
    source does not initialise it; the model takes its contents as given. *)

Definition set_nth (k : nat) (v : Z) (l : list Z) : list Z :=
  firstn k l ++ match skipn k l with [] => [] | _ :: rest => v :: rest end.

(** The loop that saves an address after a successful allocation:
    [k = 0; while (k < 16) if (!memLocations[k]) { memLocations[k] =
    tempLocation; k = 16; } else k++;]. *)
Fixpoint save_loop (fuel : nat) (memLocations : list Z) (k : nat)
         (tempLocation : Z) : list Z :=
  match fuel with
  | O => memLocations
  | S fuel' =>
      if (k <? 16)%nat
      then if nth k memLocations 0 =? 0
           then set_nth k tempLocation memLocations
           else save_loop fuel' memLocations (S k) tempLocation
      else memLocations
  end.

Definition save_location (memLocations : list Z) (tempLocation : Z) : list Z :=
  save_loop 17 memLocations 0 tempLocation.

(** The test of the loop that asks again for an index to deallocate:
    [j > 15 || !memLocations[j] || j < 1], evaluated left to right.  For a
    negative [j] the second operand reads outside the array. *)
Definition index_refused (memLocations : list Z) (j : Z) : Run bool :=
  if j >? 15 then Returns true
  else if j <? 0 then NoReturn
  else if nth (Z.to_nat j) memLocations 0 =? 0 then Returns true
  else Returns (j <? 1).

(** The test of the loop that asks again for a request size:
    [j < 1 || j > MAX_MEMORY_OFFSET]. *)
Definition size_refused (j : Z) : bool := (j <? 1) || (j >? MAX_MEMORY_OFFSET).

(** * Theorems *)

(** ** Facts about the conversions *)

Lemma sizeToBytes_nonneg (s : Z) : 0 <= s -> sizeToBytes s = 2 ^ (16 + s).
Proof.
  intros Hs. unfold sizeToBytes, BASE_SIZE.
  destruct (Z.leb_spec 0 s); [|lia].
  rewrite Z.pow_add_r by lia. reflexivity.
Qed.

Lemma sizeToBytes_pos (s : Z) : 0 <= s -> 0 < sizeToBytes s.
Proof.
  intros Hs. rewrite sizeToBytes_nonneg by lia. apply Z.pow_pos_nonneg; lia.
Qed.

Lemma sizeToBytes_double (s : Z) :
  1 <= s -> sizeToBytes s = 2 * sizeToBytes (s - 1).
Proof.
  intros Hs. rewrite !sizeToBytes_nonneg by lia.
  replace (16 + s) with (Z.succ (16 + (s - 1))) by lia.
  rewrite Z.pow_succ_r by lia. reflexivity.
Qed.

Lemma sizeToBytes_mono (s s' : Z) :
  0 <= s <= s' -> sizeToBytes s <= sizeToBytes s'.
Proof.
  intros Hs. rewrite !sizeToBytes_nonneg by lia.
  apply Z.pow_le_mono_r; lia.
Qed.

Lemma sizeToBytes_strict (s s' : Z) :
  0 <= s < s' -> sizeToBytes s < sizeToBytes s'.
Proof.
  intros Hs. rewrite !sizeToBytes_nonneg by lia.
  apply Z.pow_lt_mono_r; lia.
Qed.

(** Invariant of the loop on the terminating range: after [i] rounds
    [size = i] and [num = 2^i], and no smaller power reached [numBytes]. *)
Lemma bytesToSize_loop_inv (numBytes : Z) :
  0 <= numBytes <= 2 ^ 63 ->
  forall (fuel : nat) (i : Z),
    0 <= i <= 63 ->
    (i = 0 \/ 2 ^ (i - 1) < numBytes) ->
    (63 - i < Z.of_nat fuel) ->
    bytesToSize_loop fuel i (2 ^ i) numBytes
    = Returns (Z.log2_up numBytes - 16).
Proof.
  intros Hb fuel. induction fuel as [|fuel IH]; intros i Hi Hprev Hfuel.
  - lia.
  - cbn [bytesToSize_loop].
    destruct (Z.ltb_spec (2 ^ i) numBytes) as [Hlt|Hge].
    + assert (i < 63).
      { destruct (Z.eq_dec i 63) as [->|]; [lia|lia]. }
      replace ((2 ^ i * 2) mod SIZE_T_MOD) with (2 ^ (i + 1)).
      * apply IH; try lia.
        right. replace (i + 1 - 1) with i by lia. exact Hlt.
      * rewrite Z.pow_add_r by lia. change (2 ^ 1) with 2.
        symmetry. apply Z.mod_small. unfold SIZE_T_MOD.
        assert (2 ^ i < 2 ^ 63) by (apply Z.pow_lt_mono_r; lia).
        change (2 ^ 64) with (2 ^ 63 * 2). lia.
    + f_equal. f_equal.
      destruct (Z.eq_dec i 0) as [->|Hi0].
      * change (2 ^ 0) with 1 in Hge.
        symmetry. apply Z.log2_up_eqn0. lia.
      * destruct Hprev as [->|Hprev]; [lia|].
        symmetry. apply Z.log2_up_unique; [lia|].
        unfold Z.pred. replace (i + -1) with (i - 1) by lia. lia.
Qed.

Lemma bytesToSize_loop_log2 (numBytes : Z) (fuel : nat) :
  0 <= numBytes <= 2 ^ 63 -> (64 <= fuel)%nat ->
  bytesToSize_loop fuel 0 1 numBytes = Returns (Z.log2_up numBytes - 16).
Proof.
  intros Hb Hf. change 1 with (2 ^ 0).
  apply bytesToSize_loop_inv; try lia.
Qed.

(** On the terminating range the value is [ceil(log2 numBytes) - 16]. *)
Lemma bytesToSize_log2 (numBytes : Z) :
  0 <= numBytes <= 2 ^ 63 ->
  bytesToSize numBytes = Returns (Z.log2_up numBytes - 16).
Proof.
  intros Hb. unfold bytesToSize. apply bytesToSize_loop_log2; [exact Hb | lia].
Qed.

(** More fuel than 65 changes nothing on that range. *)
Lemma bytesToSize_loop_more_fuel (numBytes : Z) (fuel : nat) :
  0 <= numBytes <= 2 ^ 63 -> (65 <= fuel)%nat ->
  bytesToSize_loop fuel 0 1 numBytes = bytesToSize numBytes.
Proof.
  intros Hb Hf. rewrite bytesToSize_log2 by exact Hb.
  apply bytesToSize_loop_log2; [exact Hb | lia].
Qed.

(** Above [2^63] the loop never exits, whatever the fuel: [num] runs through
    the powers of two below [numBytes], wraps to 0 and stays there. *)
Lemma bytesToSize_loop_diverges (numBytes : Z) :
  2 ^ 63 < numBytes ->
  forall (fuel : nat) (size num : Z),
    (num = 0 \/ exists i, 0 <= i <= 63 /\ num = 2 ^ i) ->
    bytesToSize_loop fuel size num numBytes = NoReturn.
Proof.
  intros Hb fuel. induction fuel as [|fuel IH]; intros size num Hnum.
  - reflexivity.
  - cbn [bytesToSize_loop].
    assert (Hlt : num < numBytes).
    { destruct Hnum as [->|(i & Hi & ->)]; [lia|].
      assert (2 ^ i <= 2 ^ 63) by (apply Z.pow_le_mono_r; lia). lia. }
    destruct (Z.ltb_spec num numBytes); [|lia].
    apply IH.
    destruct Hnum as [->|(i & Hi & ->)]; [left; reflexivity|].
    destruct (Z.eq_dec i 63) as [->|Hne].
    + left. reflexivity.
    + right. exists (i + 1). split; [lia|].
      rewrite Z.pow_add_r by lia. change (2 ^ 1) with 2.
      apply Z.mod_small. unfold SIZE_T_MOD.
      assert (2 ^ i < 2 ^ 63) by (apply Z.pow_lt_mono_r; lia).
      change (2 ^ 64) with (2 ^ 63 * 2). lia.
Qed.

Lemma bytesToSize_diverges (numBytes : Z) :
  2 ^ 63 < numBytes -> forall fuel, bytesToSize_loop fuel 0 1 numBytes = NoReturn.
Proof.
  intros Hb fuel. apply bytesToSize_loop_diverges; [exact Hb|].
  right. exists 0. split; [lia | reflexivity].
Qed.

Lemma bytesToSize_sizeToBytes (s : Z) :
  0 <= s <= 47 -> bytesToSize (sizeToBytes s) = Returns s.
Proof.
  intros Hs. rewrite sizeToBytes_nonneg by lia.
  rewrite bytesToSize_log2.
  - rewrite Z.log2_up_pow2 by lia. f_equal. lia.
  - split; [apply Z.pow_nonneg; lia | apply Z.pow_le_mono_r; lia].
Qed.

(** The test [size >= bytesToSize numBytes] of [check] is the test
    [capacity >= numBytes]. *)
Lemma log2_up_le_iff (k b : Z) :
  0 <= k -> 0 <= b -> (Z.log2_up b <= k <-> b <= 2 ^ k).
Proof.
  intros Hk Hb. destruct (Z.le_gt_cases b 1) as [Hle|Hgt].
  - rewrite Z.log2_up_eqn0 by lia.
    assert (0 < 2 ^ k) by (apply Z.pow_pos_nonneg; lia). lia.
  - pose proof (Z.log2_up_spec b Hgt) as [Hlo Hhi].
    split; intros H.
    + transitivity (2 ^ Z.log2_up b); [exact Hhi|].
      apply Z.pow_le_mono_r; lia.
    + destruct (Z.le_gt_cases (Z.log2_up b) k) as [|Hlt]; [assumption|].
      assert (2 ^ k <= 2 ^ Z.pred (Z.log2_up b)) by (apply Z.pow_le_mono_r; lia).
      lia.
Qed.

Lemma fits_iff (s numBytes : Z) :
  0 <= s -> 0 <= numBytes ->
  (Z.log2_up numBytes - 16 <= s <-> numBytes <= sizeToBytes s).
Proof.
  intros Hs Hb. rewrite sizeToBytes_nonneg by lia.
  rewrite <- log2_up_le_iff by lia. lia.
Qed.

(** ** Pointers: reading and writing through a path *)

Lemma getNode_app (t : Buddy) (p q : Path) :
  getNode t (p ++ q)
  = match getNode t p with Some n => getNode n q | None => None end.
Proof.
  revert t. induction p as [|d p IH]; intros t; cbn.
  - reflexivity.
  - destruct d, t; cbn; auto.
Qed.

Lemma modify_app (p q : Path) (f : Buddy -> Buddy) (t : Buddy) :
  modify (p ++ q) f t = modify p (modify q f) t.
Proof.
  revert t. induction p as [|d p IH]; intros t; cbn.
  - reflexivity.
  - destruct d, t; cbn; f_equal; auto.
Qed.

Lemma modify_modify (p : Path) (f g : Buddy -> Buddy) (t : Buddy) :
  modify p f (modify p g t) = modify p (fun n => f (g n)) t.
Proof.
  revert t. induction p as [|d p IH]; intros t; cbn.
  - reflexivity.
  - destruct d, t; cbn; f_equal; auto.
Qed.

Lemma modify_ext_at (p : Path) (f g : Buddy -> Buddy) (t n : Buddy) :
  getNode t p = Some n -> f n = g n -> modify p f t = modify p g t.
Proof.
  revert t. induction p as [|d p IH]; intros t Hn Hfg; cbn in *.
  - injection Hn as ->. exact Hfg.
  - destruct d, t; cbn; try discriminate; f_equal; auto.
Qed.

Lemma getNode_modify (p : Path) (f : Buddy -> Buddy) (t n : Buddy) :
  getNode t p = Some n -> getNode (modify p f t) p = Some (f n).
Proof.
  revert t. induction p as [|d p IH]; intros t Hn; cbn in *.
  - injection Hn as ->. reflexivity.
  - destruct d, t; cbn; try discriminate; auto.
Qed.

Lemma modify_same (p : Path) (t n : Buddy) :
  getNode t p = Some n -> modify p (fun _ => n) t = t.
Proof.
  revert t. induction p as [|d p IH]; intros t Hn; cbn in *.
  - injection Hn as ->. reflexivity.
  - destruct d, t; cbn; try discriminate; f_equal; auto.
Qed.

(** ** The loop of [allocate] works below [location] only *)

Lemma allocate_loop_local (numBytes : Z) (fuel : nat) :
  forall (root : Buddy) (location : Path) (node : Buddy),
    getNode root location = Some node ->
    allocate_loop fuel root location numBytes
    = (r <- allocate_loop fuel node [] numBytes ;;
       Returns (modify location (fun _ => fst r) root, location ++ snd r)).
Proof.
  induction fuel as [|fuel IH]; intros root location node Hnode.
  - reflexivity.
  - cbn [allocate_loop getNode app]. rewrite Hnode.
    destruct (getMaxLength node >? (numBytes * 2) mod SIZE_T_MOD).
    + destruct (bytesToSize (getMaxLength node)) as [k|]; cbn [bind]; [|reflexivity].
      destruct (k >? 0).
      * pose (child := new_Buddy (getLocation node) (getSize node - 1)).
        rewrite (IH (modify location split root) (location ++ [L]) child).
        2:{ rewrite getNode_app, (getNode_modify _ _ _ _ Hnode). reflexivity. }
        rewrite (IH (modify [] split node) [L] child) by reflexivity.
        destruct (allocate_loop fuel child [] numBytes) as [[n' q]|]; cbn [bind fst snd];
          [|reflexivity].
        rewrite modify_app, modify_modify, <- app_assoc. f_equal. f_equal.
        apply (modify_ext_at _ _ _ _ _ Hnode). reflexivity.
      * cbn. rewrite app_nil_r, (modify_same _ _ _ Hnode). reflexivity.
    + cbn. rewrite app_nil_r, (modify_same _ _ _ Hnode). reflexivity.
Qed.

Lemma allocate_loop_more_fuel (numBytes : Z) (fuel : nat) :
  forall (root : Buddy) (location : Path) (res : Buddy * Path),
    allocate_loop fuel root location numBytes = Returns res ->
    forall fuel', (fuel <= fuel')%nat ->
                  allocate_loop fuel' root location numBytes = Returns res.
Proof.
  induction fuel as [|fuel IH]; intros root location res Hrun fuel' Hle.
  - discriminate.
  - destruct fuel' as [|fuel']; [lia|].
    cbn [allocate_loop] in *.
    destruct (getNode root location) as [node|]; [|discriminate].
    destruct (getMaxLength node >? (numBytes * 2) mod SIZE_T_MOD); [|exact Hrun].
    destruct (bytesToSize (getMaxLength node)) as [k|]; cbn [bind] in *;
      [|discriminate].
    destruct (k >? 0); [|exact Hrun].
    apply IH; [exact Hrun | lia].
Qed.

Lemma allocate_loop_S (fuel : nat) (root : Buddy) (location : Path) (numBytes : Z) :
  allocate_loop (S fuel) root location numBytes
  = match getNode root location with
    | None => NoReturn
    | Some node =>
        if getMaxLength node >? (numBytes * 2) mod SIZE_T_MOD
        then
          k <- bytesToSize (getMaxLength node) ;;
          if k >? 0
          then allocate_loop fuel (modify location split root)
                             (location ++ [L]) numBytes
          else Returns (root, location)
        else Returns (root, location)
    end.
Proof. reflexivity. Qed.

(** On a free leaf the loop builds the chain [place] describes and stops
    within [size + 1] tests. *)
Lemma allocate_loop_leaf (numBytes : Z) :
  0 <= numBytes -> numBytes * 2 < SIZE_T_MOD ->
  forall (k : nat) (a s : Z),
    Z.of_nat k = s -> s <= 46 ->
    exists (n1 : Buddy) (q : Path) (sf : Z),
      allocate_loop (S k) (Leaf a 0 s) [] numBytes = Returns (n1, q)
      /\ getNode n1 q = Some (Leaf a 0 sf)
      /\ modify q (fun n => setLength n numBytes) n1 = place k a s numBytes.
Proof.
  intros Hb Hb2. induction k as [|k IH]; intros a s Hk Hs.
  - cbn [allocate_loop getNode place]. unfold getMaxLength. cbn [getSize].
    rewrite Z.mod_small by lia. subst s. cbn [Z.of_nat].
    exists (Leaf a 0 0), [], 0.
    destruct (sizeToBytes 0 >? numBytes * 2); [|cbn; auto].
    rewrite bytesToSize_sizeToBytes by lia. cbn. auto.
  - rewrite allocate_loop_S. cbn [getNode place app]. unfold getMaxLength. cbn [getSize].
    rewrite Z.mod_small by lia.
    destruct (sizeToBytes s >? numBytes * 2).
    + rewrite bytesToSize_sizeToBytes by lia. cbn [bind andb].
      destruct (Z.gtb_spec s 0); [|lia].
      destruct (IH a (s - 1)) as (n1 & q & sf & Hrun & Hget & Hmod); [lia|lia|].
      rewrite (allocate_loop_local _ _ _ _ (Leaf a 0 (s - 1))) by reflexivity.
      rewrite Hrun. cbn [bind fst snd modify split getLocation getSize getLength app].
      exists (Split a 0 s n1 (new_Buddy (a + sizeToBytes (s - 1)) (s - 1))), (L :: q), sf.
      cbn [getNode modify]. rewrite Hmod. auto.
    + cbn [andb]. exists (Leaf a 0 s), [], s. cbn. auto.
Qed.

(** ** [check] in closed form *)

Lemma check_eq (numBytes minSize : Z) (t : Buddy) :
  bytesToSize numBytes = Returns minSize ->
  check t numBytes = Returns (check_from minSize t).
Proof.
  intros Hk. induction t as [a m s|a m s l IHl r IHr].
  - cbn [check check_from]. rewrite Hk. cbn [bind].
    destruct ((getSize (Leaf a m s) <? minSize) || negb (getLength (Leaf a m s) =? 0));
      reflexivity.
  - cbn [check check_from]. rewrite Hk. cbn [bind].
    destruct ((getSize (Split a m s l r) <? minSize)
              || negb (getLength (Split a m s l r) =? 0)); [reflexivity|].
    rewrite IHl. cbn [bind]. destruct (check_from minSize l); [reflexivity|].
    rewrite IHr. cbn [bind]. destruct (check_from minSize r); reflexivity.
Qed.

Lemma check_NoReturn (numBytes : Z) (t : Buddy) :
  bytesToSize numBytes = NoReturn -> check t numBytes = NoReturn.
Proof.
  intros Hk. destruct t; cbn [check]; rewrite Hk; reflexivity.
Qed.

(** The candidate is a free unsplit leaf of sufficient order. *)
Lemma check_from_node (minSize : Z) (t : Buddy) :
  forall p, check_from minSize t = Some p ->
            exists a s, getNode t p = Some (Leaf a 0 s) /\ minSize <= s.
Proof.
  induction t as [a m s|a m s l IHl r IHr]; intros p Hc; cbn [check_from] in Hc.
  - cbn [getSize getLength] in Hc.
    destruct (Z.ltb_spec s minSize); [discriminate|].
    destruct (Z.eqb_spec m 0); [|discriminate].
    cbn in Hc. injection Hc as <-. subst m. exists a, s. cbn. auto.
  - destruct ((getSize (Split a m s l r) <? minSize)
              || negb (getLength (Split a m s l r) =? 0)); [discriminate|].
    destruct (check_from minSize l) as [pl|] eqn:El.
    + injection Hc as <-. cbn. apply IHl. reflexivity.
    + destruct (check_from minSize r) as [pr|] eqn:Er; [|discriminate].
      injection Hc as <-. cbn. apply IHr. reflexivity.
Qed.

(** ** Well-formed trees *)

Lemma wf_root (a s : Z) (t : Buddy) :
  wf a s t -> getLocation t = a /\ getSize t = s /\ 0 <= s.
Proof.
  destruct t; cbn; intuition lia.
Qed.

Lemma wf_getNode (t : Buddy) :
  forall (a s : Z) (p : Path) (n : Buddy),
    wf a s t -> getNode t p = Some n ->
    exists a' s', wf a' s' n /\ 0 <= s' <= s.
Proof.
  induction t as [a0 m0 s0|a0 m0 s0 l IHl r IHr]; intros a s p n Hwf Hn.
  - destruct p as [|d p].
    + injection Hn as <-. exists a, s. cbn in Hwf. split; [exact Hwf|lia].
    + destruct d; discriminate.
  - destruct p as [|d p].
    + injection Hn as <-. exists a, s. cbn in Hwf. split; [exact Hwf|lia].
    + cbn in Hwf. destruct Hwf as (-> & -> & Hs & -> & Hl & Hr).
      destruct d; cbn in Hn.
      * destruct (IHl _ _ _ _ Hl Hn) as (a' & s' & H1 & H2). exists a', s'.
        split; [exact H1|lia].
      * destruct (IHr _ _ _ _ Hr Hn) as (a' & s' & H1 & H2). exists a', s'.
        split; [exact H1|lia].
Qed.

(** Replacing the block at [p] by a well-formed tree for the same block. *)
Lemma wf_modify (f : Buddy -> Buddy) (t : Buddy) :
  forall (a s : Z) (p : Path) (n : Buddy),
    wf a s t -> getNode t p = Some n ->
    (forall a' s', s' <= s -> wf a' s' n -> wf a' s' (f n)) ->
    wf a s (modify p f t).
Proof.
  induction t as [a0 m0 s0|a0 m0 s0 l IHl r IHr]; intros a s p n Hwf Hn Hf.
  - destruct p as [|d p].
    + injection Hn as <-. cbn [modify]. apply Hf; [lia|exact Hwf].
    + destruct d; discriminate.
  - destruct p as [|d p].
    + injection Hn as <-. cbn [modify]. apply Hf; [lia|exact Hwf].
    + cbn in Hwf. destruct Hwf as (-> & -> & Hs & -> & Hl & Hr).
      destruct d; cbn in Hn; cbn [modify wf]; repeat split; try lia; auto.
      * apply (IHl _ _ _ _ Hl Hn). intros a' s' Hs'. apply Hf. lia.
      * apply (IHr _ _ _ _ Hr Hn). intros a' s' Hs'. apply Hf. lia.
Qed.

Lemma wf_place (numBytes : Z) (k : nat) :
  forall (a s : Z),
    0 <= s -> 0 <= numBytes <= sizeToBytes s -> wf a s (place k a s numBytes).
Proof.
  induction k as [|k IH]; intros a s Hs Hb; cbn [place].
  - cbn. lia.
  - destruct (Z.gtb_spec (sizeToBytes s) (numBytes * 2)); cbn [andb];
      [destruct (Z.gtb_spec s 0); cbn [andb]|]; try (cbn; lia).
    cbn [wf]. repeat split; try lia.
    + apply IH; [lia|]. rewrite (sizeToBytes_double s) in * by lia. lia.
    + pose proof (sizeToBytes_pos (s - 1)). lia.
Qed.

(** ** [allocate] in closed form *)

Lemma allocate_eq (t : Buddy) (heap : Heap) (numBytes data a0 s0 : Z) :
  wf a0 s0 t -> s0 <= 46 -> 0 <= numBytes <= 2 ^ 63 ->
  allocate t heap numBytes data
  = match check_from (Z.log2_up numBytes - 16) t with
    | None => Returns (None, t, heap)
    | Some p =>
        match getNode t p with
        | Some n =>
            Returns (Some (getLocation n),
                     modify p (fun _ => place (Z.to_nat (getSize n)) (getLocation n)
                                              (getSize n) numBytes) t,
                     memcpy heap (getLocation n) data numBytes)
        | None => NoReturn
        end
    end.
Proof.
  intros Hwf Hs0 Hb. unfold allocate.
  rewrite (check_eq _ _ _ (bytesToSize_log2 _ Hb)). cbn [bind].
  destruct (check_from (Z.log2_up numBytes - 16) t) as [p|] eqn:Hc; [|reflexivity].
  destruct (check_from_node _ _ _ Hc) as (a & s & Hn & Hk).
  destruct (wf_getNode _ _ _ _ _ Hwf Hn) as (a' & s' & Hwn & Hs').
  cbn in Hwn. destruct Hwn as (<- & <- & _ & _).
  assert (Hfit : numBytes <= sizeToBytes s) by (apply fits_iff; lia).
  assert (Hcap : sizeToBytes s <= 2 ^ 62).
  { rewrite sizeToBytes_nonneg by lia. apply Z.pow_le_mono_r; lia. }
  destruct (allocate_loop_leaf numBytes) with (k := Z.to_nat s) (a := a) (s := s)
    as (n1 & q & sf & Hrun & Hget & Hmod); try lia.
  { unfold SIZE_T_MOD. change (2 ^ 64) with (2 ^ 62 * 4). lia. }
  unfold loop_fuel. rewrite Hn. cbn [getSize getLocation].
  rewrite (allocate_loop_local _ _ _ _ _ Hn), Hrun. cbn [bind fst snd].
  rewrite getNode_app, (getNode_modify _ _ _ _ Hn), Hget. cbn [getLocation].
  rewrite modify_app, modify_modify, Hmod. reflexivity.
Qed.

(** ** [release], case by case

    In a well-formed tree the left child starts where its parent starts, so
    the two branches of [release] that write through [left->setLength(0)]
    and [right->setLength(0)] do what the recursive call on that child
    does. *)

Lemma release_Split (a m s : Z) (l r : Buddy) (p : Z) :
  getLocation l = a ->
  release (Split a m s l r) p
  = let '(ret, l', r') :=
      if p =? a then let (b, l1) := release l p in (b, l1, r)
      else if p =? getLocation r then let (b, r1) := release r p in (b, l, r1)
      else let (bl, l1) := release l p in
           if bl then (true, l1, r)
           else let (br, r1) := release r p in (br, l1, r1)
    in if merge_condition l' r' then (ret, Leaf a m s)
       else (ret, Split a m s l' r').
Proof.
  intros Hl. cbn [release].
  destruct (Z.eqb_spec p a) as [->|Hpa].
  - destruct l as [al ml sl|al ml sl ll lr]; cbn [isTerminal negb]; [|reflexivity].
    cbn in Hl. subst al. cbn [release setLength]. rewrite Z.eqb_refl. reflexivity.
  - destruct (Z.eqb_spec p (getLocation r)) as [->|Hpr]; [|reflexivity].
    destruct r as [ar mr sr|ar mr sr rl rr]; cbn [isTerminal negb]; [|reflexivity].
    cbn [release setLength getLocation]. rewrite Z.eqb_refl. reflexivity.
Qed.

Lemma release_Split_cases (a m s : Z) (l r : Buddy) (p : Z) (ret : bool) (t' : Buddy) :
  getLocation l = a ->
  release (Split a m s l r) p = (ret, t') ->
  exists l' r',
    ((p = a /\ release l p = (ret, l') /\ r' = r)
     \/ (p <> a /\ p = getLocation r /\ release r p = (ret, r') /\ l' = l)
     \/ (p <> a /\ p <> getLocation r /\ release l p = (true, l')
         /\ ret = true /\ r' = r)
     \/ (p <> a /\ p <> getLocation r /\ release l p = (false, l')
         /\ release r p = (ret, r')))
    /\ t' = if merge_condition l' r' then Leaf a m s else Split a m s l' r'.
Proof.
  intros Hl Hrel. rewrite release_Split in Hrel by exact Hl.
  destruct (Z.eqb_spec p a) as [Hpa|Hpa].
  - destruct (release l p) as [b l1] eqn:El. exists l1, r.
    destruct (merge_condition l1 r); injection Hrel as <- <-; auto.
  - destruct (Z.eqb_spec p (getLocation r)) as [Hpr|Hpr].
    + destruct (release r p) as [b r1] eqn:Er. exists l, r1.
      destruct (merge_condition l r1); injection Hrel as <- <-; auto 8.
    + destruct (release l p) as [bl l1] eqn:El. destruct bl.
      * exists l1, r.
        destruct (merge_condition l1 r); injection Hrel as <- <-; auto 10.
      * destruct (release r p) as [br r1] eqn:Er. exists l1, r1.
        destruct (merge_condition l1 r1); injection Hrel as <- <-; auto 10.
Qed.

(** A coarser view: each child is either untouched or the result of its own
    [release]. *)
Lemma release_Split_children (a m s : Z) (l r : Buddy) (p : Z) (ret : bool) (t' : Buddy) :
  getLocation l = a ->
  release (Split a m s l r) p = (ret, t') ->
  exists l' r',
    (l' = l \/ exists b, release l p = (b, l'))
    /\ (r' = r \/ exists b, release r p = (b, r'))
    /\ t' = if merge_condition l' r' then Leaf a m s else Split a m s l' r'.
Proof.
  intros Hl Hrel.
  destruct (release_Split_cases _ _ _ _ _ _ _ _ Hl Hrel) as (l' & r' & Hc & Ht).
  exists l', r'. split; [|split]; [| |exact Ht];
    destruct Hc as [H|[H|[H|H]]]; intuition eauto.
Qed.

Lemma merge_condition_true (l r : Buddy) :
  merge_condition l r = true ->
  (exists a s, l = Leaf a 0 s) /\ (exists a s, r = Leaf a 0 s).
Proof.
  unfold merge_condition. intros H.
  apply andb_prop in H as [H H4]. apply andb_prop in H as [H H3].
  apply andb_prop in H as [H1 H2].
  destruct l as [al ml sl|]; cbn in *; [|discriminate].
  destruct r as [ar mr sr|]; cbn in *; [|discriminate].
  apply Z.eqb_eq in H1, H3. subst. split; eauto.
Qed.

Lemma release_wf (t : Buddy) :
  forall (a s p : Z) (ret : bool) (t' : Buddy),
    wf a s t -> release t p = (ret, t') -> wf a s t'.
Proof.
  induction t as [a0 m0 s0|a0 m0 s0 l IHl r IHr]; intros a s p ret t' Hwf Hrel.
  - cbn in Hrel, Hwf. destruct Hwf as (-> & -> & Hs & Hm).
    pose proof (sizeToBytes_pos s Hs).
    destruct (p =? a); injection Hrel as <- <-; cbn; lia.
  - cbn [wf] in Hwf. destruct Hwf as (-> & -> & Hs & -> & Hl & Hr).
    destruct (release_Split_children _ _ _ _ _ _ _ _ (proj1 (wf_root _ _ _ Hl)) Hrel)
      as (l' & r' & Hl' & Hr' & ->).
    assert (wf a (s - 1) l') by (destruct Hl' as [->|[b Hb]]; eauto).
    assert (wf (a + sizeToBytes (s - 1)) (s - 1) r')
      by (destruct Hr' as [->|[b Hb]]; eauto).
    pose proof (sizeToBytes_pos s).
    destruct (merge_condition l' r'); cbn [wf]; repeat split; auto; lia.
Qed.

Lemma release_merged (t : Buddy) :
  forall (a s p : Z) (ret : bool) (t' : Buddy),
    wf a s t -> merged t -> release t p = (ret, t') -> merged t'.
Proof.
  induction t as [a0 m0 s0|a0 m0 s0 l IHl r IHr]; intros a s p ret t' Hwf Hm Hrel.
  - cbn in Hrel. destruct (p =? a0); injection Hrel as <- <-; exact I.
  - cbn [wf] in Hwf. destruct Hwf as (-> & -> & Hs & -> & Hl & Hr).
    cbn [merged] in Hm. destruct Hm as (Hmc & Hml & Hmr).
    destruct (release_Split_children _ _ _ _ _ _ _ _ (proj1 (wf_root _ _ _ Hl)) Hrel)
      as (l' & r' & Hl' & Hr' & ->).
    assert (merged l') by (destruct Hl' as [->|[b Hb]]; eauto).
    assert (merged r') by (destruct Hr' as [->|[b Hb]]; eauto).
    destruct (merge_condition l' r') eqn:E; cbn [merged]; auto.
Qed.

(** ** Leaves of a well-formed tree *)

Lemma wf_leaves_range (t : Buddy) :
  forall (a s : Z) (lf : Z * Z * Z),
    wf a s t -> In lf (leaves t) ->
    a <= leaf_start lf
    /\ leaf_start lf + leaf_capacity lf <= a + sizeToBytes s
    /\ 0 <= snd lf
    /\ 0 <= leaf_length lf <= leaf_capacity lf.
Proof.
  induction t as [a0 m0 s0|a0 m0 s0 l IHl r IHr]; intros a s lf Hwf Hin.
  - cbn [wf] in Hwf. destruct Hwf as (-> & -> & Hs & Hm).
    cbn [leaves] in Hin. destruct Hin as [<-|[]].
    unfold leaf_start, leaf_capacity, leaf_length. cbn [fst snd]. lia.
  - cbn [wf] in Hwf. destruct Hwf as (-> & -> & Hs & -> & Hl & Hr).
    cbn [leaves] in Hin. apply in_app_or in Hin.
    pose proof (sizeToBytes_double s Hs).
    pose proof (sizeToBytes_pos (s - 1)).
    destruct Hin as [Hin|Hin].
    + specialize (IHl _ _ _ Hl Hin). intuition lia.
    + specialize (IHr _ _ _ Hr Hin). intuition lia.
Qed.

Lemma occupied_Split (a m s : Z) (l r : Buddy) :
  occupied (Split a m s l r) = occupied l ++ occupied r.
Proof. unfold occupied. cbn [leaves]. apply filter_app. Qed.

Lemma occupied_In (t : Buddy) (lf : Z * Z * Z) :
  In lf (occupied t) -> In lf (leaves t).
Proof. unfold occupied. intros H. apply filter_In in H. tauto. Qed.

Lemma filter_other_id (p : Z) (ls : list (Z * Z * Z)) :
  (forall lf, In lf ls -> leaf_start lf <> p) ->
  filter (fun lf => negb (leaf_start lf =? p)) ls = ls.
Proof.
  induction ls as [|x ls IH]; intros H; cbn; [reflexivity|].
  destruct (Z.eqb_spec (leaf_start x) p) as [E|E].
  - exfalso. apply (H x); [left; reflexivity | exact E].
  - cbn. f_equal. apply IH. intros lf Hin. apply H. right. exact Hin.
Qed.

(** ** What [release] returns and what it changes *)

Lemma release_true_in (t : Buddy) :
  forall (a s p : Z) (t' : Buddy),
    wf a s t -> release t p = (true, t') ->
    exists lf, In lf (leaves t) /\ leaf_start lf = p.
Proof.
  induction t as [a0 m0 s0|a0 m0 s0 l IHl r IHr]; intros a s p t' Hwf Hrel.
  - cbn in Hrel. destruct (Z.eqb_spec p a0) as [->|]; [|discriminate].
    exists (a0, m0, s0). cbn. auto.
  - cbn [wf] in Hwf. destruct Hwf as (-> & -> & Hs & -> & Hl & Hr).
    destruct (release_Split_cases _ _ _ _ _ _ _ _ (proj1 (wf_root _ _ _ Hl)) Hrel)
      as (l' & r' & Hc & _).
    cbn [leaves].
    destruct Hc as [(_ & H & _)|[(_ & _ & H & _)|[(_ & _ & H & _)|(_ & _ & _ & H)]]].
    + destruct (IHl _ _ _ _ Hl H) as (lf & Hin & E). exists lf. auto using in_or_app.
    + destruct (IHr _ _ _ _ Hr H) as (lf & Hin & E). exists lf. auto using in_or_app.
    + destruct (IHl _ _ _ _ Hl H) as (lf & Hin & E). exists lf. auto using in_or_app.
    + destruct (IHr _ _ _ _ Hr H) as (lf & Hin & E). exists lf. auto using in_or_app.
Qed.

Lemma release_true_range (t : Buddy) (a s p : Z) (t' : Buddy) :
  wf a s t -> release t p = (true, t') -> a <= p < a + sizeToBytes s.
Proof.
  intros Hwf Hrel. destruct (release_true_in _ _ _ _ _ Hwf Hrel) as (lf & Hin & <-).
  pose proof (wf_leaves_range _ _ _ _ Hwf Hin) as (H1 & H2 & H3 & H4).
  pose proof (sizeToBytes_pos _ H3). unfold leaf_capacity in *. lia.
Qed.

(** Releasing the address a node starts at always reports success. *)
Lemma release_at_start (t : Buddy) :
  forall (a s : Z), wf a s t -> fst (release t a) = true.
Proof.
  induction t as [a0 m0 s0|a0 m0 s0 l IHl r IHr]; intros a s Hwf.
  - cbn in Hwf. destruct Hwf as (-> & _). cbn. rewrite Z.eqb_refl. reflexivity.
  - cbn [wf] in Hwf. destruct Hwf as (-> & -> & Hs & -> & Hl & Hr).
    rewrite release_Split by apply (wf_root _ _ _ Hl). rewrite Z.eqb_refl.
    specialize (IHl _ _ Hl). destruct (release l a) as [b l1]. cbn in IHl. subst b.
    destruct (merge_condition l1 r); reflexivity.
Qed.

Lemma release_in_true (t : Buddy) :
  forall (a s p : Z) (lf : Z * Z * Z),
    wf a s t -> In lf (leaves t) -> leaf_start lf = p ->
    fst (release t p) = true.
Proof.
  induction t as [a0 m0 s0|a0 m0 s0 l IHl r IHr]; intros a s p lf Hwf Hin Hp.
  - cbn in Hin. destruct Hin as [<-|[]]. cbn in Hp. subst p. cbn.
    rewrite Z.eqb_refl. reflexivity.
  - pose proof Hwf as Hwf0.
    cbn [wf] in Hwf. destruct Hwf as (-> & -> & Hs & -> & Hl & Hr).
    destruct (release (Split a 0 s l r) p) as [ret t'] eqn:Hrel. cbn [fst].
    destruct (release_Split_cases _ _ _ _ _ _ _ _ (proj1 (wf_root _ _ _ Hl)) Hrel)
      as (l' & r' & Hc & _).
    destruct Hc as [(-> & H & _)|[(_ & E & H & _)|[(_ & _ & _ & H & _)|(_ & _ & H1 & H2)]]].
    + pose proof (release_at_start _ _ _ Hl) as Hs'. rewrite H in Hs'. exact Hs'.
    + rewrite E, (proj1 (wf_root _ _ _ Hr)) in H.
      pose proof (release_at_start _ _ _ Hr) as Hs'. rewrite H in Hs'. exact Hs'.
    + exact H.
    + cbn [leaves] in Hin. apply in_app_or in Hin. destruct Hin as [Hin|Hin].
      * specialize (IHl _ _ _ _ Hl Hin Hp). rewrite H1 in IHl. discriminate.
      * specialize (IHr _ _ _ _ Hr Hin Hp). rewrite H2 in IHr. exact IHr.
Qed.

(** [release] takes the leaf that starts at the address out of the occupied
    leaves and touches no other length. *)
Lemma release_occupied (t : Buddy) :
  forall (a s p : Z) (ret : bool) (t' : Buddy),
    wf a s t -> release t p = (ret, t') ->
    occupied t' = filter (fun lf => negb (leaf_start lf =? p)) (occupied t).
Proof.
  induction t as [a0 m0 s0|a0 m0 s0 l IHl r IHr]; intros a s p ret t' Hwf Hrel.
  - cbn in Hrel. unfold occupied. cbn [leaves filter]. unfold leaf_length. cbn [fst snd].
    destruct (Z.eqb_spec p a0) as [->|Hne]; injection Hrel as <- <-.
    + cbn. destruct (m0 =? 0); cbn; [reflexivity|].
      unfold leaf_start. cbn. rewrite Z.eqb_refl. reflexivity.
    + cbn. unfold leaf_length. cbn. destruct (m0 =? 0); cbn; [reflexivity|].
      unfold leaf_start. cbn. destruct (Z.eqb_spec a0 p); [lia|reflexivity].
  - cbn [wf] in Hwf. destruct Hwf as (-> & -> & Hs & -> & Hl & Hr).
    destruct (release_Split_cases _ _ _ _ _ _ _ _ (proj1 (wf_root _ _ _ Hl)) Hrel)
      as (l' & r' & Hc & ->).
    pose proof (sizeToBytes_pos (s - 1)) as Hhalf.
    assert (Hleft : forall lf, In lf (occupied l) ->
                               leaf_start lf < a + sizeToBytes (s - 1)).
    { intros lf Hin. apply occupied_In in Hin.
      pose proof (wf_leaves_range _ _ _ _ Hl Hin) as (H1 & H2 & H3 & H4).
      pose proof (sizeToBytes_pos _ H3). unfold leaf_capacity in *. lia. }
    assert (Hright : forall lf, In lf (occupied r) ->
                                a + sizeToBytes (s - 1) <= leaf_start lf).
    { intros lf Hin. apply occupied_In in Hin.
      apply (wf_leaves_range _ _ _ _ Hr Hin). }
    assert (Hsub : occupied l' ++ occupied r'
                   = filter (fun lf => negb (leaf_start lf =? p))
                            (occupied (Split a 0 s l r))).
    { rewrite occupied_Split, filter_app.
      destruct Hc as [(-> & H & ->)|[(_ & E & H & ->)|[(_ & _ & H & _ & ->)|(_ & _ & H1 & H2)]]].
      - rewrite (IHl _ _ _ _ _ Hl H). f_equal. symmetry. apply filter_other_id.
        intros lf Hin. specialize (Hright lf Hin). lia.
      - rewrite (IHr _ _ _ _ _ Hr H). f_equal. symmetry. apply filter_other_id.
        intros lf Hin. specialize (Hleft lf Hin).
        rewrite (proj1 (wf_root _ _ _ Hr)) in E. lia.
      - rewrite (IHl _ _ _ _ _ Hl H). f_equal. symmetry. apply filter_other_id.
        intros lf Hin. specialize (Hright lf Hin).
        pose proof (release_true_range _ _ _ _ _ Hl H). lia.
      - rewrite (IHl _ _ _ _ _ Hl H1), (IHr _ _ _ _ _ Hr H2). reflexivity. }
    rewrite <- Hsub.
    destruct (merge_condition l' r') eqn:E.
    + apply merge_condition_true in E as ((al & sl & ->) & (ar & sr & ->)).
      reflexivity.
    + apply occupied_Split.
Qed.

(** If no occupied leaf starts at the address, a maximally merged tree is
    left as it was. *)
Lemma release_noop (t : Buddy) :
  forall (a s p : Z),
    wf a s t -> merged t ->
    (forall lf, In lf (leaves t) -> leaf_start lf = p -> leaf_length lf = 0) ->
    snd (release t p) = t.
Proof.
  induction t as [a0 m0 s0|a0 m0 s0 l IHl r IHr]; intros a s p Hwf Hm Hfree.
  - cbn. destruct (Z.eqb_spec p a0) as [->|]; [|reflexivity].
    specialize (Hfree (a0, m0, s0) (or_introl eq_refl) eq_refl). cbn in Hfree.
    subst m0. reflexivity.
  - cbn [wf] in Hwf. destruct Hwf as (-> & -> & Hs & -> & Hl & Hr).
    cbn [merged] in Hm. destruct Hm as (Hmc & Hml & Hmr).
    destruct (release (Split a 0 s l r) p) as [ret t'] eqn:Hrel. cbn [snd].
    destruct (release_Split_children _ _ _ _ _ _ _ _ (proj1 (wf_root _ _ _ Hl)) Hrel)
      as (l' & r' & Hl' & Hr' & ->).
    assert (l' = l) as ->.
    { destruct Hl' as [->|[b Hb]]; [reflexivity|].
      rewrite <- (IHl _ _ p Hl Hml), Hb; [reflexivity|].
      intros lf Hin. apply Hfree. cbn [leaves]. auto using in_or_app. }
    assert (r' = r) as ->.
    { destruct Hr' as [->|[b Hb]]; [reflexivity|].
      rewrite <- (IHr _ _ p Hr Hmr), Hb; [reflexivity|].
      intros lf Hin. apply Hfree. cbn [leaves]. auto using in_or_app. }
    rewrite Hmc. reflexivity.
Qed.

Lemma release_false_id (t : Buddy) (a s p : Z) (t' : Buddy) :
  wf a s t -> merged t -> release t p = (false, t') -> t' = t.
Proof.
  intros Hwf Hm Hrel.
  rewrite <- (release_noop t a s p Hwf Hm), Hrel; [reflexivity|].
  intros lf Hin Hp. pose proof (release_in_true _ _ _ _ _ Hwf Hin Hp) as H.
  rewrite Hrel in H. discriminate.
Qed.

(** ** What [allocate] does to a well-formed tree *)

Lemma allocate_returns_bound (t : Buddy) (heap : Heap) (numBytes data : Z)
      (res : option Z * Buddy * Heap) :
  allocate t heap numBytes data = Returns res -> numBytes <= 2 ^ 63.
Proof.
  intros Hrun. destruct (Z.le_gt_cases numBytes (2 ^ 63)) as [|Hgt]; [assumption|].
  exfalso. unfold allocate in Hrun.
  rewrite check_NoReturn in Hrun; [discriminate|].
  apply bytesToSize_diverges. lia.
Qed.

Lemma allocate_cases (t : Buddy) (heap : Heap) (numBytes data a0 s0 : Z)
      (ret : option Z) (t' : Buddy) (heap' : Heap) :
  wf a0 s0 t -> s0 <= 46 -> 0 <= numBytes ->
  allocate t heap numBytes data = Returns (ret, t', heap') ->
  (check_from (Z.log2_up numBytes - 16) t = None
   /\ ret = None /\ t' = t /\ heap' = heap)
  \/ (exists p a s,
         check_from (Z.log2_up numBytes - 16) t = Some p
         /\ getNode t p = Some (Leaf a 0 s)
         /\ 0 <= s <= s0
         /\ numBytes <= sizeToBytes s
         /\ ret = Some a
         /\ t' = modify p (fun _ => place (Z.to_nat s) a s numBytes) t
         /\ heap' = memcpy heap a data numBytes).
Proof.
  intros Hwf Hs0 Hb Hrun.
  pose proof (allocate_returns_bound _ _ _ _ _ Hrun) as Hb63.
  rewrite (allocate_eq _ _ _ _ _ _ Hwf Hs0) in Hrun by lia.
  destruct (check_from (Z.log2_up numBytes - 16) t) as [p|] eqn:Hc.
  - right. destruct (check_from_node _ _ _ Hc) as (a & s & Hn & Hk).
    destruct (wf_getNode _ _ _ _ _ Hwf Hn) as (a' & s' & Hwn & Hs').
    cbn in Hwn. destruct Hwn as (<- & <- & _ & _).
    rewrite Hn in Hrun. cbn [getLocation getSize] in Hrun.
    injection Hrun as <- <- <-.
    exists p, a, s. repeat split; try lia; try assumption. apply fits_iff; lia.
  - left. injection Hrun as <- <- <-. auto.
Qed.

Lemma allocate_wf (t : Buddy) (heap : Heap) (numBytes data a0 s0 : Z)
      (ret : option Z) (t' : Buddy) (heap' : Heap) :
  wf a0 s0 t -> s0 <= 46 -> 0 <= numBytes ->
  allocate t heap numBytes data = Returns (ret, t', heap') ->
  wf a0 s0 t'.
Proof.
  intros Hwf Hs0 Hb Hrun.
  destruct (allocate_cases _ _ _ _ _ _ _ _ _ Hwf Hs0 Hb Hrun)
    as [(_ & _ & -> & _)|(p & a & s & _ & Hn & Hs & Hfit & _ & -> & _)];
    [exact Hwf|].
  apply (wf_modify _ _ _ _ _ _ Hwf Hn).
  intros a' s' _ Hw. cbn in Hw. destruct Hw as (<- & <- & _ & _).
  apply wf_place; lia.
Qed.

(** ** Maximally merged trees *)

Lemma merge_condition_free (l r : Buddy) :
  merge_condition l r = is_free_leaf r && is_free_leaf l.
Proof. unfold merge_condition, is_free_leaf. rewrite andb_assoc. reflexivity. Qed.

Lemma modify_not_free (p : Path) (t n n' : Buddy) :
  getNode t p = Some n -> is_free_leaf n' = false ->
  is_free_leaf (modify p (fun _ => n') t) = false.
Proof.
  intros Hn Hf. destruct p as [|d p]; [exact Hf|].
  destruct d, t; cbn in Hn; try discriminate; cbn;
    unfold is_free_leaf; cbn; apply andb_false_r.
Qed.

Lemma merged_modify (n' : Buddy) :
  is_free_leaf n' = false -> merged n' ->
  forall (p : Path) (t n : Buddy),
    merged t -> getNode t p = Some n -> merged (modify p (fun _ => n') t).
Proof.
  intros Hf Hm' p. induction p as [|d p IH]; intros t n Hm Hn.
  - exact Hm'.
  - destruct d, t as [|a m s l r]; cbn in Hn; try discriminate;
      cbn [modify merged] in *; destruct Hm as (Hmc & Hml & Hmr);
      (split; [|split]); eauto;
      rewrite merge_condition_free, (modify_not_free _ _ _ _ Hn Hf);
      [apply andb_false_r | reflexivity].
Qed.

Lemma place_not_free (numBytes : Z) (k : nat) (a s : Z) :
  numBytes <> 0 -> is_free_leaf (place k a s numBytes) = false.
Proof.
  intros Hb. unfold is_free_leaf.
  destruct k; cbn [place];
    [|destruct ((sizeToBytes s >? numBytes * 2) && (s >? 0)); [apply andb_false_r|]];
    cbn; destruct (Z.eqb_spec numBytes 0); try lia; reflexivity.
Qed.

Lemma merged_place (numBytes : Z) (k : nat) :
  numBytes <> 0 -> forall a s, merged (place k a s numBytes).
Proof.
  intros Hb. induction k as [|k IH]; intros a s; cbn [place]; [exact I|].
  destruct ((sizeToBytes s >? numBytes * 2) && (s >? 0)); [|exact I].
  cbn [merged]. split; [|split]; [|apply IH|exact I].
  rewrite merge_condition_free, (place_not_free _ _ _ _ Hb). apply andb_false_r.
Qed.

Lemma allocate_merged (t : Buddy) (heap : Heap) (numBytes data a0 s0 : Z)
      (ret : option Z) (t' : Buddy) (heap' : Heap) :
  wf a0 s0 t -> s0 <= 46 -> 1 <= numBytes -> merged t ->
  allocate t heap numBytes data = Returns (ret, t', heap') ->
  merged t'.
Proof.
  intros Hwf Hs0 Hb Hm Hrun.
  assert (Hb0 : 0 <= numBytes) by lia.
  assert (Hne : numBytes <> 0) by lia.
  destruct (allocate_cases _ _ _ _ _ _ _ _ _ Hwf Hs0 Hb0 Hrun)
    as [(_ & _ & -> & _)|(p & a & s & _ & Hn & Hs & Hfit & _ & -> & _)];
    [exact Hm|].
  apply (merged_modify _ (place_not_free _ _ _ _ Hne)
                       (merged_place _ _ Hne _ _) _ _ _ Hm Hn).
Qed.

(** ** Invariants of the reachable states *)

Section Invariants.
Variables base N : Z.
Hypothesis N_range : 0 <= N <= 46.

Lemma reachable_wf (lo : Z) (t : Buddy) :
  0 <= lo -> reachable base N lo t -> wf base N t.
Proof.
  intros Hlo Hr. induction Hr as [|t heap b d ret t' heap' _ IH Hb Hrun|t p ret t' _ IH Hrel].
  - cbn. pose proof (sizeToBytes_pos N). lia.
  - apply (allocate_wf _ _ _ _ _ _ _ _ _ IH) in Hrun; [assumption|lia|lia].
  - exact (release_wf _ _ _ _ _ _ IH Hrel).
Qed.

Lemma reachable_merged (t : Buddy) :
  reachable base N 1 t -> merged t.
Proof.
  intros Hr.
  induction Hr as [|t heap b d ret t' heap' Hr IH Hb Hrun|t p ret t' Hr IH Hrel].
  - exact I.
  - assert (Hwf : wf base N t) by (apply (reachable_wf 1); [lia|exact Hr]).
    apply (allocate_merged _ _ _ _ _ _ _ _ _ Hwf) in Hrun;
      [assumption|lia|lia|assumption].
  - assert (Hwf : wf base N t) by (apply (reachable_wf 1); [lia|exact Hr]).
    exact (release_merged _ _ _ _ _ _ Hwf IH Hrel).
Qed.

Lemma reachable_weaken (lo : Z) (t : Buddy) :
  0 <= lo -> reachable base N lo t -> reachable base N 0 t.
Proof.
  intros Hlo Hr.
  induction Hr as [|t heap b d ret t' heap' _ IH Hb Hrun|t p ret t' _ IH Hrel].
  - constructor.
  - eapply reach_allocate; [exact IH| |exact Hrun]. lia.
  - eapply reach_release; [exact IH|exact Hrel].
Qed.
End Invariants.

(** ** Sizes and disjointness of the leaves *)

Lemma total_used_app (l r : list (Z * Z * Z)) :
  fold_right (fun lf acc => leaf_length lf + acc) 0 (l ++ r)
  = fold_right (fun lf acc => leaf_length lf + acc) 0 l
    + fold_right (fun lf acc => leaf_length lf + acc) 0 r.
Proof.
  induction l as [|x l IH]; cbn; [reflexivity|]. rewrite IH. lia.
Qed.

Lemma wf_total_used (t : Buddy) :
  forall a s, wf a s t -> 0 <= total_used t <= sizeToBytes s.
Proof.
  induction t as [a0 m0 s0|a0 m0 s0 l IHl r IHr]; intros a s Hwf.
  - cbn [wf] in Hwf. destruct Hwf as (-> & -> & Hs & Hm).
    unfold total_used, leaf_length. cbn. lia.
  - cbn [wf] in Hwf. destruct Hwf as (-> & -> & Hs & -> & Hl & Hr).
    unfold total_used in *. cbn [leaves]. rewrite total_used_app.
    specialize (IHl _ _ Hl). specialize (IHr _ _ Hr).
    rewrite (sizeToBytes_double s Hs). lia.
Qed.

Lemma ForallOrdPairs_app {A : Type} (R : A -> A -> Prop) (l1 l2 : list A) :
  ForallOrdPairs R l1 -> ForallOrdPairs R l2 ->
  (forall x y, In x l1 -> In y l2 -> R x y) ->
  ForallOrdPairs R (l1 ++ l2).
Proof.
  intros H1 H2 Hx. induction H1 as [|x l1 Hall H1 IH]; cbn; [exact H2|].
  constructor.
  - apply Forall_app. split; [exact Hall|].
    apply Forall_forall. intros y Hy. apply Hx; [left; reflexivity|exact Hy].
  - apply IH. intros x' y Hx' Hy. apply Hx; [right; exact Hx'|exact Hy].
Qed.

Lemma ForallOrdPairs_nth {A : Type} (R : A -> A -> Prop) (l : list A) :
  ForallOrdPairs R l ->
  forall (i j : nat) (x y : A),
    (i < j)%nat -> nth_error l i = Some x -> nth_error l j = Some y -> R x y.
Proof.
  induction 1 as [|a l Hall _ IH]; intros i j x y Hij Hi Hj.
  - destruct i; discriminate.
  - destruct j as [|j]; [lia|]. destruct i as [|i]; cbn in Hi, Hj.
    + injection Hi as <-. apply nth_error_In in Hj.
      rewrite Forall_forall in Hall. exact (Hall _ Hj).
    + apply (IH i j); [lia|exact Hi|exact Hj].
Qed.

(** Left to right, each leaf ends before the next begins. *)
Lemma wf_leaves_ordered (t : Buddy) :
  forall a s,
    wf a s t ->
    ForallOrdPairs (fun x y => leaf_start x + leaf_capacity x <= leaf_start y)
                   (leaves t).
Proof.
  induction t as [a0 m0 s0|a0 m0 s0 l IHl r IHr]; intros a s Hwf.
  - cbn. repeat constructor.
  - pose proof Hwf as Hwf0.
    cbn [wf] in Hwf. destruct Hwf as (-> & -> & Hs & -> & Hl & Hr).
    cbn [leaves]. apply ForallOrdPairs_app; eauto.
    intros x y Hx Hy.
    pose proof (wf_leaves_range _ _ _ _ Hl Hx).
    pose proof (wf_leaves_range _ _ _ _ Hr Hy). lia.
Qed.

Lemma wf_blocks_disjoint (t : Buddy) (a s : Z) :
  wf a s t -> blocks_disjoint t.
Proof.
  intros Hwf i j lf1 lf2 x Hij Hi Hj [H1 H2].
  pose proof (wf_leaves_ordered _ _ _ Hwf) as Hord.
  unfold in_block in *.
  destruct (Nat.lt_ge_cases i j) as [Hlt|Hge].
  - pose proof (ForallOrdPairs_nth _ _ Hord i j _ _ Hlt Hi Hj). cbn in *. lia.
  - assert (Hlt : (j < i)%nat) by lia.
    pose proof (ForallOrdPairs_nth _ _ Hord j i _ _ Hlt Hj Hi). cbn in *. lia.
Qed.

Lemma wf_split_nodes_empty (t : Buddy) :
  forall a s, wf a s t -> split_nodes_empty t.
Proof.
  induction t as [a0 m0 s0|a0 m0 s0 l IHl r IHr]; intros a s Hwf; [exact I|].
  cbn [wf] in Hwf. destruct Hwf as (_ & _ & _ & -> & Hl & Hr).
  cbn. eauto.
Qed.

(** * The claims *)

(** ** C3: the bytes-to-order conversion *)

(** C3, as stated, fails: for a request of 1 byte [bytesToSize] returns -16,
    which is below 0 and therefore not the smallest non-negative order whose
    capacity holds the request. *)
Lemma bytesToSize_one_byte_negative :
  bytesToSize 1 = Returns (-16)
  /\ ~ (exists k, bytesToSize 1 = Returns k /\ order_for_size_spec 1 k).
Proof.
  split; [reflexivity|].
  intros (k & Hk & Hnonneg & _). vm_compute in Hk. injection Hk as <-. lia.
Qed.

(** C3, amended: for every request of [1 <= b <= 2^63] bytes [bytesToSize]
    returns the smallest integer [k >= -16] with [2^(16+k) >= b]; the order
    is negative exactly for requests of at most half the minimum block size,
    and above that it is the smallest non-negative [k] with
    [MIN_BLOCK_SIZE * 2^k >= b]; the conversion is non-decreasing in [b]
    wherever it returns. *)
Theorem bytesToSize_least_order (b : Z) :
  1 <= b <= 2 ^ 63 ->
  exists k,
    bytesToSize b = Returns k
    /\ (-16 <= k /\ b <= 2 ^ (16 + k)
        /\ forall j, -16 <= j -> b <= 2 ^ (16 + j) -> k <= j)
    /\ (BASE_SIZE / 2 < b <-> 0 <= k)
    /\ (BASE_SIZE / 2 < b -> order_for_size_spec b k)
    /\ (forall b' k', b <= b' -> bytesToSize b' = Returns k' -> k <= k').
Proof.
  intros Hb. exists (Z.log2_up b - 16).
  pose proof (Z.log2_up_nonneg b) as Hnn.
  assert (Hup : b <= 2 ^ Z.log2_up b) by (apply log2_up_le_iff; lia).
  assert (Hmin : forall j, -16 <= j -> b <= 2 ^ (16 + j) -> Z.log2_up b - 16 <= j).
  { intros j Hj Hbj. apply (log2_up_le_iff (16 + j) b) in Hbj; lia. }
  assert (Hsign : BASE_SIZE / 2 < b <-> 0 <= Z.log2_up b - 16).
  { change (BASE_SIZE / 2) with (2 ^ 15). split; intros H.
    - destruct (Z.le_gt_cases 16 (Z.log2_up b)) as [|Hlt]; [lia|].
      assert (b <= 2 ^ 15) by (apply log2_up_le_iff; lia). lia.
    - destruct (Z.lt_ge_cases (2 ^ 15) b) as [|Hle]; [assumption|].
      apply (log2_up_le_iff 15 b) in Hle; lia. }
  split; [apply bytesToSize_log2; lia|].
  split; [|split; [exact Hsign|split]].
  - replace (16 + (Z.log2_up b - 16)) with (Z.log2_up b) by lia.
    split; [lia|split; [exact Hup|exact Hmin]].
  - intros Hbig. apply Hsign in Hbig. unfold order_for_size_spec, BASE_SIZE.
    change 65536 with (2 ^ 16). split; [lia|split].
    + rewrite <- Z.pow_add_r by lia.
      replace (16 + (Z.log2_up b - 16)) with (Z.log2_up b) by lia. exact Hup.
    + intros j Hj Hbj. rewrite <- Z.pow_add_r in Hbj by lia. apply Hmin; [lia|exact Hbj].
  - intros b' k' Hle Hrun.
    destruct (Z.le_gt_cases b' (2 ^ 63)) as [Hb'|Hb'].
    + rewrite bytesToSize_log2 in Hrun by lia. injection Hrun as <-.
      pose proof (Z.log2_up_le_mono b b' Hle). lia.
    + unfold bytesToSize in Hrun. rewrite bytesToSize_diverges in Hrun by lia.
      discriminate.
Qed.

Lemma bytesToSize_least_order_witness :
  exists k, bytesToSize 70000 = Returns k /\ order_for_size_spec 70000 k.
Proof.
  destruct (bytesToSize_least_order 70000) as (k & Hk & _ & _ & Hspec & _).
  - lia.
  - exists k. split; [exact Hk|]. apply Hspec. reflexivity.
Defined.

(** ** Example runs from the fresh tree of the reference configuration *)

Lemma two_blocks_reachable (lo : Z) : lo <= 1 -> reachable 4096 4 lo two_blocks.
Proof.
  intros Hlo.
  apply (reach_allocate 4096 4 lo
           (Split 4096 0 4
                  (Split 4096 0 3
                         (Split 4096 0 2 (Leaf 4096 70000 1) (Leaf 135168 0 1))
                         (Leaf 266240 0 2))
                  (Leaf 528384 0 3))
           heap0 500000 0 (Some 528384) two_blocks (memcpy heap0 528384 0 500000)).
  - apply (reach_allocate 4096 4 lo fresh heap0 70000 0 (Some 4096) _
                          (memcpy heap0 4096 0 70000)).
    + apply reach_new.
    + unfold SIZE_T_MOD. lia.
    + reflexivity.
  - unfold SIZE_T_MOD. lia.
  - reflexivity.
Defined.

Lemma after_zero_bytes_reachable : reachable 4096 4 0 after_zero_bytes.
Proof.
  apply (reach_allocate 4096 4 0 fresh heap0 0 0 (Some 4096) after_zero_bytes
                        (memcpy heap0 4096 0 0)).
  - apply reach_new.
  - unfold SIZE_T_MOD. lia.
  - reflexivity.
Defined.

(** The rest of the scenario of the specification: with the two blocks in
    place a request of 600000 bytes finds no candidate, and releasing the
    70000-byte block merges its branch back up to the order-3 node, where
    the occupied 512 KiB leaf stops the cascade. *)
Example scenario_no_room :
  allocate two_blocks heap0 600000 0 = Returns (None, two_blocks, heap0).
Proof. reflexivity. Qed.

Example scenario_release_merges :
  release two_blocks 4096
  = (true, Split 4096 0 4 (Leaf 4096 0 3) (Leaf 528384 500000 3)).
Proof. reflexivity. Qed.

(** ** C9: split nodes hold no length *)

(** C9: in every state reachable through construction, [allocate] and
    [release] (for a region of order [0 <= N <= 46], any request size, any
    released address), every split node has [memLength = 0].  The only
    nodes [allocate] splits descend from a free unsplit leaf: a successful
    call replaces one leaf with [memLength = 0] by the chain [place], whose
    split nodes are created with [memLength = 0] and whose last leaf alone
    receives the length. *)
Theorem split_nodes_hold_nothing (base N : Z) (t : Buddy) :
  0 <= N <= 46 -> reachable base N 0 t ->
  split_nodes_empty t
  /\ (forall heap numBytes data a t' heap',
         0 <= numBytes < SIZE_T_MOD ->
         allocate t heap numBytes data = Returns (Some a, t', heap') ->
         exists p s,
           getNode t p = Some (Leaf a 0 s)
           /\ t' = modify p (fun _ => place (Z.to_nat s) a s numBytes) t
           /\ split_nodes_empty t').
Proof.
  intros HN Hr.
  assert (Hwf : wf base N t) by (apply (reachable_wf base N HN 0); [lia|exact Hr]).
  split; [exact (wf_split_nodes_empty t base N Hwf)|].
  intros heap numBytes data a t' heap' Hb Hrun.
  pose proof (allocate_wf _ _ _ _ _ _ _ _ _ Hwf (proj2 HN) (proj1 Hb) Hrun) as Hwf'.
  destruct (allocate_cases _ _ _ _ _ _ _ _ _ Hwf (proj2 HN) (proj1 Hb) Hrun)
    as [(_ & E & _)|(p & a1 & s & _ & Hn & _ & _ & E & Ht & _)]; [discriminate|].
  injection E as <-. exists p, s.
  split; [exact Hn|]. split; [exact Ht|].
  exact (wf_split_nodes_empty t' base N Hwf').
Qed.

Lemma split_nodes_hold_nothing_witness : split_nodes_empty two_blocks.
Proof.
  apply (split_nodes_hold_nothing 4096 4 two_blocks).
  - lia.
  - apply two_blocks_reachable. lia.
Defined.

(** ** C7: no double counting *)

(** C7: in every reachable state the lengths stored in the unsplit leaves sum
    to at most the region size [MIN_BLOCK_SIZE * 2^N], and the blocks of two
    different leaves have no address in common. *)
Theorem no_double_counting (base N : Z) (t : Buddy) :
  0 <= N <= 46 -> reachable base N 0 t ->
  total_used t <= sizeToBytes N /\ blocks_disjoint t.
Proof.
  intros HN Hr.
  assert (Hwf : wf base N t) by (apply (reachable_wf base N HN 0); [lia|exact Hr]).
  split.
  - apply (wf_total_used t base N Hwf).
  - apply (wf_blocks_disjoint t base N Hwf).
Qed.

Lemma no_double_counting_witness :
  total_used two_blocks <= MAX_MEMORY_OFFSET /\ blocks_disjoint two_blocks.
Proof.
  apply (no_double_counting 4096 4 two_blocks).
  - lia.
  - apply two_blocks_reachable. lia.
Defined.

Lemma find_all_false {A : Type} (f : A -> bool) (l : list A) :
  (forall x, In x l -> f x = false) -> find f l = None.
Proof.
  induction l as [|y l IH]; intros H; cbn; [reflexivity|].
  rewrite (H y (or_introl eq_refl)). apply IH. intros x Hx. apply H. right. exact Hx.
Qed.

(** The lengths recorded per address are determined by the occupied
    leaves. *)
Lemma length_in_filter (x : Z) (ls : list (Z * Z * Z)) :
  ForallOrdPairs (fun u v => leaf_start u + leaf_capacity u <= leaf_start v) ls ->
  length_in ls x
  = length_in (filter (fun lf => negb (leaf_length lf =? 0)) ls) x.
Proof.
  induction 1 as [|u ls Hall _ IH]; [reflexivity|].
  unfold length_in in *. cbn [find filter].
  destruct (holds x u) eqn:Hu.
  - destruct (Z.eqb_spec (leaf_length u) 0) as [E|E]; cbn [negb find].
    + rewrite E.
      replace (find (holds x) (filter (fun lf => negb (leaf_length lf =? 0)) ls))
        with (@None (Z * Z * Z)); [reflexivity|].
      symmetry. apply find_all_false. intros v Hv.
      apply filter_In in Hv as [Hv _].
      rewrite Forall_forall in Hall. specialize (Hall v Hv).
      unfold holds in *. apply andb_prop in Hu as [_ Hu]. apply Z.ltb_lt in Hu.
      destruct (Z.leb_spec (leaf_start v) x); [lia|reflexivity].
    + rewrite Hu. reflexivity.
  - destruct (leaf_length u =? 0); cbn [negb find]; [exact IH|].
    rewrite Hu. exact IH.
Qed.

Lemma used_at_occupied (t : Buddy) (a s x : Z) :
  wf a s t -> used_at t x = length_in (occupied t) x.
Proof.
  intros Hwf. unfold used_at, occupied. apply length_in_filter.
  exact (wf_leaves_ordered _ _ _ Hwf).
Qed.

(** ** C8: failures change nothing *)

Lemma allocate_NULL_unchanged (t : Buddy) (heap : Heap) (numBytes data : Z)
      (t' : Buddy) (heap' : Heap) :
  allocate t heap numBytes data = Returns (None, t', heap') ->
  t' = t /\ heap' = heap.
Proof.
  unfold allocate. intros Hrun.
  destruct (check t numBytes) as [[candidate|]|]; cbn [bind] in Hrun;
    [|injection Hrun as <- <-; auto|discriminate].
  destruct (allocate_loop (loop_fuel t candidate) t candidate numBytes)
    as [[root1 location]|]; cbn [bind] in Hrun; [|discriminate].
  destruct (getNode root1 location); discriminate.
Qed.

(** C8, as stated, fails: a failed call is not atomic on the tree.  After
    a request of 0 bytes and one of 70000 bytes, a [release] of an address
    that is no block's start returns [false] and yet merges the two free
    leaves of order 0 into their parent: the tree is not the one from before
    the call (no length is altered). *)
Lemma failed_release_changes_tree :
  reachable 4096 4 0 zero_then_block
  /\ release zero_then_block 5
     = (false,
        Split 4096 0 4
              (Split 4096 0 3
                     (Split 4096 0 2 (Leaf 4096 0 1) (Leaf 135168 70000 1))
                     (Leaf 266240 0 2))
              (Leaf 528384 0 3))
  /\ snd (release zero_then_block 5) <> zero_then_block
  /\ occupied (snd (release zero_then_block 5)) = occupied zero_then_block.
Proof.
  split; [|split; [reflexivity|split; [discriminate|reflexivity]]].
  apply (reach_allocate 4096 4 0 after_zero_bytes heap0 70000 0 (Some 135168)
                        zero_then_block (memcpy heap0 135168 0 70000)).
  - exact after_zero_bytes_reachable.
  - unfold SIZE_T_MOD. lia.
  - reflexivity.
Qed.

(** C8, amended: in every reachable state, for every request of at most
    [2^63] bytes the search returns, and when it finds no candidate
    [allocate] returns the null pointer as a value, with the tree (every
    split flag, every length) and the backing memory exactly as they were;
    otherwise it returns an address.  Every null return of [allocate] leaves
    tree and memory as they were.  [release] returns [false] exactly when no
    unsplit leaf starts at the address, and a [release] that returns [false]
    alters no length: the occupied leaves, the length recorded for every
    address and the bytes in use are what they were; the tree itself is
    unchanged when it is maximally merged (otherwise the failed call may
    still merge free leaves). *)
Theorem failures_change_nothing (base N : Z) (t : Buddy) :
  0 <= N <= 46 -> reachable base N 0 t ->
  (forall heap numBytes data,
      0 <= numBytes <= 2 ^ 63 ->
      exists c,
        check t numBytes = Returns c
        /\ match c with
           | None => allocate t heap numBytes data = Returns (None, t, heap)
           | Some _ =>
               exists a t' heap',
                 allocate t heap numBytes data = Returns (Some a, t', heap')
           end)
  /\ (forall heap numBytes data t' heap',
         allocate t heap numBytes data = Returns (None, t', heap') ->
         t' = t /\ heap' = heap)
  /\ (forall p, fst (release t p) = false <-> ~ leaf_starts_at t p)
  /\ (forall p t',
         release t p = (false, t') ->
         occupied t' = occupied t
         /\ (forall x, used_at t' x = used_at t x)
         /\ total_used t' = total_used t
         /\ (merged t -> t' = t)).
Proof.
  intros HN Hr.
  assert (Hwf : wf base N t) by (apply (reachable_wf base N HN 0); [lia|exact Hr]).
  split; [|split; [|split]].
  - intros heap numBytes data Hb.
    exists (check_from (Z.log2_up numBytes - 16) t).
    split; [exact (check_eq _ _ _ (bytesToSize_log2 numBytes Hb))|].
    rewrite (allocate_eq _ _ _ _ _ _ Hwf (proj2 HN) Hb).
    destruct (check_from (Z.log2_up numBytes - 16) t) as [p|] eqn:Hc; [|reflexivity].
    destruct (check_from_node _ _ _ Hc) as (a1 & s1 & Hn & _).
    rewrite Hn. eauto.
  - intros heap numBytes data t' heap'. apply allocate_NULL_unchanged.
  - intros p. destruct (release t p) as [ret t'] eqn:Hrel. cbn [fst]. split.
    + intros -> (lf & Hin & Hp).
      pose proof (release_in_true _ _ _ _ _ Hwf Hin Hp) as H.
      rewrite Hrel in H. discriminate.
    + intros Hno. destruct ret; [|reflexivity].
      exfalso. apply Hno. exact (release_true_in _ _ _ _ _ Hwf Hrel).
  - intros p t' Hrel.
    assert (Hocc : occupied t' = occupied t).
    { rewrite (release_occupied _ _ _ _ _ _ Hwf Hrel). apply filter_other_id.
      intros lf Hin Hp. apply occupied_In in Hin.
      pose proof (release_in_true _ _ _ _ _ Hwf Hin Hp) as H.
      rewrite Hrel in H. discriminate. }
    assert (Hwf' : wf base N t') by exact (release_wf _ _ _ _ _ _ Hwf Hrel).
    split; [exact Hocc|split; [|split]].
    + intros x.
      rewrite (used_at_occupied _ _ _ x Hwf'), (used_at_occupied _ _ _ x Hwf), Hocc.
      reflexivity.
    + clear - Hocc. revert Hocc. unfold occupied, total_used.
      generalize (leaves t) (leaves t'). clear.
      assert (Hsum : forall ls,
                 fold_right (fun lf acc => leaf_length lf + acc) 0 ls
                 = fold_right (fun lf acc => leaf_length lf + acc) 0
                              (filter (fun lf => negb (leaf_length lf =? 0)) ls)).
      { induction ls as [|x ls IH]; cbn; [reflexivity|].
        destruct (Z.eqb_spec (leaf_length x) 0) as [E|E]; cbn; lia. }
      intros l1 l2 H. rewrite (Hsum l1), (Hsum l2), H. reflexivity.
    + intros Hm. exact (release_false_id _ _ _ _ _ Hwf Hm Hrel).
Qed.

Lemma failures_change_nothing_witness :
  (exists c,
      check two_blocks 600000 = Returns c
      /\ match c with
         | None => allocate two_blocks heap0 600000 0
                   = Returns (None, two_blocks, heap0)
         | Some _ =>
             exists a t' heap',
               allocate two_blocks heap0 600000 0 = Returns (Some a, t', heap')
         end)
  /\ (fst (release two_blocks 5) = false <-> ~ leaf_starts_at two_blocks 5).
Proof.
  destruct (failures_change_nothing 4096 4 two_blocks) as (Ha & _ & Hf & _).
  - lia.
  - apply two_blocks_reachable. lia.
  - split; [apply (Ha heap0 600000 0); lia|apply Hf].
Defined.

(** ** C10: the tree is maximally merged *)

(** C10, as stated, fails: a request of 0 bytes on the fresh tree returns
    with a chain of splits that ends in two free unsplit leaves under one
    parent, and a [release] that fails on that tree merges them all. *)
Lemma zero_bytes_leave_unmerged_tree :
  reachable 4096 4 0 after_zero_bytes
  /\ ~ merged after_zero_bytes
  /\ release after_zero_bytes 5 = (false, fresh)
  /\ fresh <> after_zero_bytes.
Proof.
  split; [exact after_zero_bytes_reachable|].
  split; [|split; [reflexivity|discriminate]].
  cbn. intros (_ & (_ & (_ & (H & _) & _) & _) & _). discriminate.
Qed.

(** C10, amended: when every [allocate] request is for at least one byte,
    after every completed [allocate] or [release] call no split node has two
    children that are both unsplit with [memLength = 0]; consequently a
    [release] that returns [false] leaves the tree as it was. *)
Theorem always_maximally_merged (base N : Z) (t : Buddy) :
  0 <= N <= 46 -> reachable base N 1 t ->
  merged t /\ (forall p t', release t p = (false, t') -> t' = t).
Proof.
  intros HN Hr.
  assert (Hwf : wf base N t) by (apply (reachable_wf base N HN 1); [lia|exact Hr]).
  assert (Hm : merged t) by exact (reachable_merged base N HN t Hr).
  split; [exact Hm|].
  intros p t' Hrel. exact (release_false_id _ _ _ _ _ Hwf Hm Hrel).
Qed.

Lemma always_maximally_merged_witness :
  merged two_blocks /\ (forall p t', release two_blocks p = (false, t') -> t' = two_blocks).
Proof.
  apply (always_maximally_merged 4096 4 two_blocks).
  - lia.
  - apply two_blocks_reachable. lia.
Defined.

(** ** C2: what [release] reports *)

(** C2, as stated, fails: on the fresh tree nothing is occupied, yet
    releasing the region's start reports success; and after a block has
    been released once, releasing it a second time reports success again. *)
Lemma release_of_a_free_leaf_succeeds :
  (fst (release fresh 4096) = true /\ ~ occupied_at fresh 4096)
  /\ (release two_blocks 528384 = (true, Split 4096 0 4
        (Split 4096 0 3
               (Split 4096 0 2 (Leaf 4096 70000 1) (Leaf 135168 0 1))
               (Leaf 266240 0 2))
        (Leaf 528384 0 3))
      /\ fst (release (snd (release two_blocks 528384)) 528384) = true).
Proof.
  split; [split; [reflexivity|]|split; reflexivity].
  intros (lf & Hin & _). exact Hin.
Qed.

Lemma in_occupied_length (t : Buddy) (lf : Z * Z * Z) :
  In lf (leaves t) -> leaf_length lf <> 0 -> In lf (occupied t).
Proof.
  intros Hin Hne. unfold occupied. apply filter_In. split; [exact Hin|].
  destruct (Z.eqb_spec (leaf_length lf) 0); [contradiction|reflexivity].
Qed.

(** After [release t p], whatever it returned, no occupied leaf starts at
    [p]. *)
Lemma release_leaves_free (t : Buddy) (a s p : Z) (ret : bool) (t' : Buddy) :
  wf a s t -> release t p = (ret, t') ->
  forall lf, In lf (leaves t') -> leaf_start lf = p -> leaf_length lf = 0.
Proof.
  intros Hwf Hrel lf Hin Hp.
  destruct (Z.eq_dec (leaf_length lf) 0) as [|Hne]; [assumption|exfalso].
  pose proof (in_occupied_length _ _ Hin Hne) as Hocc.
  rewrite (release_occupied _ _ _ _ _ _ Hwf Hrel) in Hocc.
  apply filter_In in Hocc as [_ Hocc].
  rewrite Hp, Z.eqb_refl in Hocc. discriminate.
Qed.

(** C2, amended: in every reachable state [release p] returns [true] if and
    only if [p] is the start address of an unsplit leaf, occupied or free;
    a second [release] of the same address changes no length (the occupied
    leaves stay as the first call left them, and a maximally merged tree
    is left exactly as it was), whatever the second call reports. *)
Theorem release_reports_leaf_start (base N : Z) (t : Buddy) (p : Z) :
  0 <= N <= 46 -> reachable base N 0 t ->
  (fst (release t p) = true <-> leaf_starts_at t p)
  /\ (forall r1 t1 r2 t2,
         release t p = (r1, t1) -> release t1 p = (r2, t2) ->
         occupied t2 = occupied t1
         /\ (forall x, used_at t2 x = used_at t1 x)
         /\ (r2 = true <-> leaf_starts_at t1 p)
         /\ (merged t -> t2 = t1)).
Proof.
  intros HN Hr.
  assert (Hwf : wf base N t) by (apply (reachable_wf base N HN 0); [lia|exact Hr]).
  assert (Hiff : forall u, wf base N u ->
                           (fst (release u p) = true <-> leaf_starts_at u p)).
  { intros u Hu. split.
    - destruct (release u p) as [ret u'] eqn:Hrel. cbn. intros ->.
      exact (release_true_in _ _ _ _ _ Hu Hrel).
    - intros (lf & Hin & Hp). exact (release_in_true _ _ _ _ _ Hu Hin Hp). }
  split; [exact (Hiff t Hwf)|].
  intros r1 t1 r2 t2 H1 H2.
  assert (Hwf1 : wf base N t1) by exact (release_wf _ _ _ _ _ _ Hwf H1).
  pose proof (release_leaves_free _ _ _ _ _ _ Hwf H1) as Hfree.
  assert (Hocc : occupied t2 = occupied t1).
  { rewrite (release_occupied _ _ _ _ _ _ Hwf1 H2). apply filter_other_id.
    intros lf Hin Hp. unfold occupied in Hin. apply filter_In in Hin as [Hin Hlen].
    rewrite (Hfree lf Hin Hp) in Hlen. discriminate. }
  split; [exact Hocc|split; [|split]].
  - intros x.
    rewrite (used_at_occupied _ _ _ x (release_wf _ _ _ _ _ _ Hwf1 H2)),
      (used_at_occupied _ _ _ x Hwf1), Hocc.
    reflexivity.
  - specialize (Hiff t1 Hwf1). rewrite H2 in Hiff. exact Hiff.
  - intros Hm.
    assert (Hm1 : merged t1) by exact (release_merged _ _ _ _ _ _ Hwf Hm H1).
    pose proof (release_noop t1 base N p Hwf1 Hm1 Hfree) as Hn.
    rewrite H2 in Hn. exact Hn.
Qed.

Lemma release_reports_leaf_start_witness :
  fst (release two_blocks 528384) = true <-> leaf_starts_at two_blocks 528384.
Proof.
  apply (release_reports_leaf_start 4096 4 two_blocks 528384).
  - lia.
  - apply two_blocks_reachable. lia.
Defined.

(** ** C4: degenerate request sizes *)

(** C4, as stated, fails: a request of 0 bytes is not rejected; on the fresh
    tree it returns the region's start and leaves four split nodes behind. *)
Lemma zero_bytes_not_rejected :
  allocate fresh heap0 0 0
  = Returns (Some 4096, after_zero_bytes, memcpy heap0 4096 0 0)
  /\ after_zero_bytes <> fresh.
Proof.
  split; [reflexivity|discriminate].
Qed.

Lemma check_from_too_small (minSize : Z) (t : Buddy) :
  getSize t < minSize -> check_from minSize t = None.
Proof.
  intros Hlt. destruct t as [a m s|a m s l r]; cbn [check_from getSize] in *;
    destruct (Z.ltb_spec s minSize); try lia; reflexivity.
Qed.

(** C4, amended: in every reachable state a request of more bytes than the
    root's capacity [MIN_BLOCK_SIZE * 2^N] (and of at most [2^63] bytes, the
    sizes on which the conversion returns) makes [allocate] return the null
    pointer with the tree and the backing memory exactly as they were: no
    address, no split, no copy, no length changed.  The rejection is the
    search answering that there is no candidate at the root. *)
Theorem oversized_request_rejected (base N : Z) (t : Buddy)
        (heap : Heap) (numBytes data : Z) :
  0 <= N <= 46 -> reachable base N 0 t ->
  sizeToBytes N < numBytes <= 2 ^ 63 ->
  check t numBytes = Returns None
  /\ allocate t heap numBytes data = Returns (None, t, heap).
Proof.
  intros HN Hr Hb.
  assert (Hwf : wf base N t) by (apply (reachable_wf base N HN 0); [lia|exact Hr]).
  pose proof (sizeToBytes_pos N ltac:(lia)) as Hpos.
  assert (Hnone : check_from (Z.log2_up numBytes - 16) t = None).
  { apply check_from_too_small. rewrite (proj1 (proj2 (wf_root _ _ _ Hwf))).
    destruct (Z.lt_ge_cases N (Z.log2_up numBytes - 16)) as [|Hge]; [assumption|].
    apply fits_iff in Hge; lia. }
  split.
  - rewrite (check_eq _ _ _ (bytesToSize_log2 numBytes ltac:(lia))), Hnone.
    reflexivity.
  - rewrite (allocate_eq _ _ _ _ _ _ Hwf) by lia. rewrite Hnone. reflexivity.
Qed.

Lemma oversized_request_rejected_witness :
  allocate two_blocks heap0 1048577 0 = Returns (None, two_blocks, heap0).
Proof.
  apply (oversized_request_rejected 4096 4 two_blocks heap0 1048577 0).
  - lia.
  - apply two_blocks_reachable. lia.
  - split; [reflexivity|]. intros H. discriminate H.
Defined.

(** ** C1: a request of exactly a block size *)

Lemma place_exact (k : Z) :
  0 <= k ->
  forall (n : nat) (a s : Z),
    k + 1 <= s -> s - (k + 1) <= Z.of_nat n ->
    exists rest,
      leaves (place n a s (sizeToBytes k)) = (a, sizeToBytes k, k + 1) :: rest.
Proof.
  intros Hk. induction n as [|n IH]; intros a s Hs Hn; cbn [place].
  - replace s with (k + 1) by lia. exists []. reflexivity.
  - replace (sizeToBytes k * 2) with (sizeToBytes (k + 1))
      by (rewrite (sizeToBytes_double (k + 1)) by lia;
          replace (k + 1 - 1) with k by lia; lia).
    destruct (Z.gtb_spec (sizeToBytes s) (sizeToBytes (k + 1))) as [Hgt|Hle].
    + assert (k + 1 < s).
      { destruct (Z.eq_dec s (k + 1)) as [->|]; lia. }
      destruct (Z.gtb_spec s 0); [|lia]. cbn [andb leaves].
      destruct (IH a (s - 1)) as (rest & Hrest); [lia|lia|].
      rewrite Hrest. eexists. reflexivity.
    + assert (s = k + 1) as ->.
      { destruct (Z.eq_dec s (k + 1)) as [|Hne]; [assumption|].
        pose proof (sizeToBytes_strict (k + 1) s). lia. }
      cbn [andb leaves]. exists []. reflexivity.
Qed.

(** C1 does not hold of the code.  On a fresh tree of order [N], a request
    of exactly [sizeToBytes k] bytes with [k < N] succeeds at the region's
    start, but the loop of [allocate] stops one split early (its test is
    [getMaxLength() > numBytes*2], which is false at equality): the data
    sits in a leaf of order [k + 1], twice the requested size. *)
Theorem exact_request_lands_one_order_up (base N k : Z) (heap : Heap) (data : Z) :
  0 <= k < N -> N <= 46 ->
  exists t' heap',
    allocate (new_Buddy base N) heap (sizeToBytes k) data
    = Returns (Some base, t', heap')
    /\ leaf_at t' base = Some (base, sizeToBytes k, k + 1)
    /\ leaf_capacity (base, sizeToBytes k, k + 1) = 2 * sizeToBytes k.
Proof.
  intros Hk HN.
  assert (Hwf : wf base N (new_Buddy base N)).
  { cbn. pose proof (sizeToBytes_pos N). lia. }
  assert (Hb : 0 <= sizeToBytes k <= 2 ^ 63).
  { rewrite sizeToBytes_nonneg by lia. split; [apply Z.pow_nonneg; lia|].
    apply Z.pow_le_mono_r; lia. }
  rewrite (allocate_eq _ _ _ _ _ _ Hwf) by lia.
  replace (Z.log2_up (sizeToBytes k) - 16) with k
    by (rewrite sizeToBytes_nonneg, Z.log2_up_pow2 by lia; lia).
  unfold new_Buddy. cbn [check_from getSize getLength].
  destruct (Z.ltb_spec N k); [lia|]. cbn [orb negb Z.eqb getNode getLocation getSize modify].
  destruct (place_exact k ltac:(lia) (Z.to_nat N) base N) as (rest & Hrest); [lia|lia|].
  eexists. eexists. split; [reflexivity|]. split.
  - unfold leaf_at. rewrite Hrest. cbn [find]. unfold leaf_start at 1. cbn [fst].
    rewrite Z.eqb_refl. reflexivity.
  - unfold leaf_capacity. cbn [snd]. rewrite (sizeToBytes_double (k + 1)) by lia.
    replace (k + 1 - 1) with k by lia. reflexivity.
Qed.

Lemma exact_request_lands_one_order_up_witness :
  exists t' heap',
    allocate fresh heap0 65536 0 = Returns (Some 4096, t', heap')
    /\ leaf_at t' 4096 = Some (4096, 65536, 1)
    /\ leaf_capacity (4096, 65536, 1) = 131072.
Proof.
  apply (exact_request_lands_one_order_up 4096 4 0 heap0 0); lia.
Defined.

(** The same run, evaluated: 65536 bytes end up in the 128 KiB leaf. *)
Lemma exact_request_64K_evaluated :
  allocate fresh heap0 (sizeToBytes 0) 0
  = Returns (Some 4096,
             Split 4096 0 4
                   (Split 4096 0 3
                          (Split 4096 0 2 (Leaf 4096 65536 1) (Leaf 135168 0 1))
                          (Leaf 266240 0 2))
                   (Leaf 528384 0 3),
             memcpy heap0 4096 0 65536).
Proof. reflexivity. Qed.

(** Only the request for the whole region is an exact fit. *)
Lemma whole_region_request_exact (base N : Z) (heap : Heap) (data : Z) :
  0 <= N <= 46 ->
  allocate (new_Buddy base N) heap (sizeToBytes N) data
  = Returns (Some base, Leaf base (sizeToBytes N) N,
             memcpy heap base data (sizeToBytes N)).
Proof.
  intros HN.
  assert (Hwf : wf base N (new_Buddy base N)).
  { cbn. pose proof (sizeToBytes_pos N). lia. }
  assert (Hb : 0 <= sizeToBytes N <= 2 ^ 63).
  { rewrite sizeToBytes_nonneg by lia. split; [apply Z.pow_nonneg; lia|].
    apply Z.pow_le_mono_r; lia. }
  rewrite (allocate_eq _ _ _ _ _ _ Hwf) by lia.
  replace (Z.log2_up (sizeToBytes N) - 16) with N
    by (rewrite sizeToBytes_nonneg, Z.log2_up_pow2 by lia; lia).
  unfold new_Buddy. cbn [check_from getSize getLength].
  rewrite Z.ltb_irrefl. cbn [orb negb Z.eqb getNode getLocation getSize modify].
  pose proof (sizeToBytes_pos N ltac:(lia)).
  destruct (Z.to_nat N); cbn [place]; [reflexivity|].
  destruct (Z.gtb_spec (sizeToBytes N) (sizeToBytes N * 2)); [lia|]. reflexivity.
Qed.

(** ** C5: the search *)

Lemma find_app_first {A : Type} (f : A -> bool) (l1 l2 : list A) :
  find f (l1 ++ l2)
  = match find f l1 with Some x => Some x | None => find f l2 end.
Proof.
  induction l1 as [|x l1 IH]; cbn; [reflexivity|].
  destruct (f x); [reflexivity|exact IH].
Qed.

Lemma find_map_path (d : Dir) (q : Buddy -> bool) (l : list (Path * Buddy)) :
  find (fun x => q (snd x)) (map (fun x => (d :: fst x, snd x)) l)
  = option_map (fun x => (d :: fst x, snd x)) (find (fun x => q (snd x)) l).
Proof.
  induction l as [|[p n] l IH]; cbn; [reflexivity|].
  destruct (q n); [reflexivity|exact IH].
Qed.

Lemma find_candidate_Split (a m s : Z) (l r : Buddy) (bytes : Z) :
  find_candidate (Split a m s l r) bytes
  = match find_candidate l bytes with
    | Some p => Some (L :: p)
    | None =>
        match find_candidate r bytes with
        | Some p => Some (R :: p)
        | None => None
        end
    end.
Proof.
  unfold find_candidate. cbn [leaf_paths].
  rewrite find_app_first, !find_map_path.
  destruct (find (fun x => qualifies bytes (snd x)) (leaf_paths l)); cbn;
    [reflexivity|].
  destruct (find (fun x => qualifies bytes (snd x)) (leaf_paths r)); reflexivity.
Qed.

Lemma check_from_leftmost (bytes : Z) (t : Buddy) :
  0 <= bytes ->
  forall a s, wf a s t ->
              check_from (Z.log2_up bytes - 16) t = find_candidate t bytes.
Proof.
  intros Hb. induction t as [a0 m0 s0|a0 m0 s0 l IHl r IHr]; intros a s Hwf.
  - cbn [wf] in Hwf. destruct Hwf as (-> & -> & Hs & Hm).
    cbn [check_from getSize getLength]. unfold find_candidate, qualifies, getMaxLength.
    cbn [leaf_paths find snd getLength getSize].
    pose proof (fits_iff s bytes Hs Hb) as Hfit.
    destruct (Z.ltb_spec s (Z.log2_up bytes - 16)), (Z.leb_spec bytes (sizeToBytes s));
      try lia; destruct (m0 =? 0); reflexivity.
  - cbn [wf] in Hwf. destruct Hwf as (-> & -> & Hs & -> & Hl & Hr).
    rewrite find_candidate_Split, <- (IHl _ _ Hl), <- (IHr _ _ Hr).
    cbn [check_from getSize getLength Z.eqb negb].
    destruct (Z.ltb_spec s (Z.log2_up bytes - 16)) as [Hlt|Hge]; cbn [orb];
      [|reflexivity].
    rewrite !check_from_too_small; [reflexivity| |].
    + rewrite (proj1 (proj2 (wf_root _ _ _ Hr))). lia.
    + rewrite (proj1 (proj2 (wf_root _ _ _ Hl))). lia.
Qed.

(** C5 does not hold of the code for requests above [2^63] bytes: no leaf
    can hold them, so the answer should be the null pointer ("NULL is
    returned if none is found"), yet [check] gives no answer at all; [num]
    wraps around to 0 in the conversion loop, which then never leaves its
    [while], whatever the number of rounds. *)
Lemma check_huge_request_no_answer :
  (forall fuel, bytesToSize_loop fuel 0 1 (2 ^ 63 + 1) = NoReturn)
  /\ find_candidate fresh (2 ^ 63 + 1) = None
  /\ check fresh (2 ^ 63 + 1) = NoReturn
  /\ check fresh (2 ^ 63 + 1) <> Returns (find_candidate fresh (2 ^ 63 + 1)).
Proof.
  split; [intros fuel; apply bytesToSize_diverges; lia|].
  split; [reflexivity|]. split; [reflexivity|]. discriminate.
Qed.

(** C5 on the sizes on which the conversion returns: in every reachable
    state and for every request of at most [2^63] bytes, [check] returns the left-most unsplit leaf with
    [memLength = 0] and capacity at least the request when there is one, and
    the null pointer otherwise; a qualifying unsplit leaf is returned itself,
    and a split node whose order suffices answers with the left subtree's
    candidate, and with the right subtree's only if the left has none. *)
Theorem check_finds_leftmost (base N : Z) (t : Buddy) (numBytes : Z) :
  0 <= N <= 46 -> reachable base N 0 t -> 0 <= numBytes <= 2 ^ 63 ->
  check t numBytes = Returns (find_candidate t numBytes)
  /\ (forall a s, t = Leaf a 0 s -> numBytes <= sizeToBytes s ->
                  check t numBytes = Returns (Some []))
  /\ (forall a m s l r,
         t = Split a m s l r -> numBytes <= sizeToBytes s ->
         check l numBytes = Returns (find_candidate l numBytes)
         /\ check r numBytes = Returns (find_candidate r numBytes)
         /\ check t numBytes
            = match find_candidate l numBytes with
              | Some p => Returns (Some (L :: p))
              | None =>
                  match find_candidate r numBytes with
                  | Some p => Returns (Some (R :: p))
                  | None => Returns None
                  end
              end).
Proof.
  intros HN Hr Hb.
  assert (Hwf : wf base N t) by (apply (reachable_wf base N HN 0); [lia|exact Hr]).
  assert (Hk := bytesToSize_log2 numBytes Hb).
  assert (Hall : forall u a s, wf a s u ->
                               check u numBytes = Returns (find_candidate u numBytes)).
  { intros u a s Hu. rewrite (check_eq _ _ _ Hk).
    rewrite (check_from_leftmost numBytes u (proj1 Hb) a s Hu). reflexivity. }
  split; [exact (Hall t base N Hwf)|split].
  - intros a s -> Hfit. cbn [check]. rewrite Hk. cbn [bind getSize getLength].
    cbn [wf] in Hwf. destruct Hwf as (_ & -> & Hs & _).
    pose proof (fits_iff N numBytes Hs (proj1 Hb)) as Hiff.
    destruct (Z.ltb_spec N (Z.log2_up numBytes - 16)); [lia|]. reflexivity.
  - intros a m s l r -> Hfit.
    rewrite (Hall _ base N Hwf).
    cbn [wf] in Hwf. destruct Hwf as (_ & _ & Hs & _ & Hl & Hrr).
    split; [exact (Hall l _ _ Hl)|]. split; [exact (Hall r _ _ Hrr)|].
    rewrite find_candidate_Split.
    destruct (find_candidate l numBytes); [reflexivity|].
    destruct (find_candidate r numBytes); reflexivity.
Qed.

Lemma check_finds_leftmost_witness :
  check two_blocks 100000 = Returns (Some [L; L; R]).
Proof.
  apply (check_finds_leftmost 4096 4 two_blocks 100000).
  - lia.
  - apply two_blocks_reachable. lia.
  - lia.
Defined.

(** ** C6: releasing everything under a node *)

Lemma path_block_order (p : Path) :
  forall a s, snd (path_block a s p) = s - Z.of_nat (length p).
Proof.
  induction p as [|d p IH]; intros a s; cbn [path_block length].
  - cbn. lia.
  - destruct d; rewrite IH; lia.
Qed.

Lemma path_block_range (p : Path) :
  forall a s,
    0 <= snd (path_block a s p) ->
    a <= fst (path_block a s p)
    /\ fst (path_block a s p) + sizeToBytes (snd (path_block a s p))
       <= a + sizeToBytes s.
Proof.
  induction p as [|d p IH]; intros a s Hs; cbn [path_block] in *.
  - cbn. lia.
  - assert (1 <= s).
    { destruct d; rewrite path_block_order in Hs; lia. }
    pose proof (sizeToBytes_double s ltac:(lia)).
    pose proof (sizeToBytes_pos (s - 1) ltac:(lia)).
    destruct d; specialize (IH _ _ Hs); lia.
Qed.

Lemma wf_path_block (t : Buddy) :
  forall a s p n,
    wf a s t -> getNode t p = Some n ->
    wf (fst (path_block a s p)) (snd (path_block a s p)) n.
Proof.
  induction t as [a0 m0 s0|a0 m0 s0 l IHl r IHr]; intros a s p n Hwf Hn.
  - destruct p as [|d p]; [|destruct d; discriminate].
    injection Hn as <-. exact Hwf.
  - destruct p as [|d p]; [injection Hn as <-; exact Hwf|].
    cbn [wf] in Hwf. destruct Hwf as (-> & -> & Hs & -> & Hl & Hr).
    destruct d; cbn in Hn; cbn [path_block]; eauto.
Qed.

Lemma descend_getNode (t : Buddy) :
  forall p n, getNode t p = Some n -> descend t p = n.
Proof.
  induction t as [a0 m0 s0|a0 m0 s0 l IHl r IHr]; intros p n Hn.
  - destruct p as [|d p]; [|destruct d; discriminate].
    injection Hn as <-. reflexivity.
  - destruct p as [|d p]; [injection Hn as <-; reflexivity|].
    destruct d; cbn in *; eauto.
Qed.

Lemma descend_is_node (t : Buddy) :
  forall p, exists q, getNode t q = Some (descend t p).
Proof.
  induction t as [a0 m0 s0|a0 m0 s0 l IHl r IHr]; intros p.
  - exists []. destruct p as [|[] p]; reflexivity.
  - destruct p as [|d p]; [exists []; reflexivity|].
    destruct d; cbn [descend].
    + destruct (IHl p) as (q & Hq). exists (L :: q). exact Hq.
    + destruct (IHr p) as (q & Hq). exists (R :: q). exact Hq.
Qed.

Lemma merged_getNode (t : Buddy) :
  forall p n, merged t -> getNode t p = Some n -> merged n.
Proof.
  induction t as [a0 m0 s0|a0 m0 s0 l IHl r IHr]; intros p n Hm Hn.
  - destruct p as [|d p]; [|destruct d; discriminate].
    injection Hn as <-. exact Hm.
  - destruct p as [|d p]; [injection Hn as <-; exact Hm|].
    cbn [merged] in Hm. destruct Hm as (_ & Hml & Hmr).
    destruct d; cbn in Hn; eauto.
Qed.

(** The node that manages the block [p] names covers that block. *)
Lemma descend_covers (t : Buddy) :
  forall a s p,
    wf a s t -> 0 <= snd (path_block a s p) ->
    exists a' s',
      wf a' s' (descend t p)
      /\ a' <= fst (path_block a s p)
      /\ fst (path_block a s p) + sizeToBytes (snd (path_block a s p))
         <= a' + sizeToBytes s'.
Proof.
  induction t as [a0 m0 s0|a0 m0 s0 l IHl r IHr]; intros a s p Hwf Hp.
  - exists a, s. replace (descend (Leaf a0 m0 s0) p) with (Leaf a0 m0 s0)
      by (destruct p as [|[] p]; reflexivity).
    split; [exact Hwf|]. apply path_block_range. exact Hp.
  - destruct p as [|d p].
    + exists a, s. cbn [descend path_block fst snd]. split; [exact Hwf|lia].
    + cbn [wf] in Hwf. destruct Hwf as (-> & -> & Hs & -> & Hl & Hr).
      destruct d; cbn [descend path_block] in *; eauto.
Qed.

(** A well-formed, maximally merged tree without occupied leaves is a
    single free leaf. *)
Lemma free_when_empty (t : Buddy) :
  forall a s, wf a s t -> merged t -> occupied t = [] -> t = Leaf a 0 s.
Proof.
  induction t as [a0 m0 s0|a0 m0 s0 l IHl r IHr]; intros a s Hwf Hm Hocc.
  - cbn [wf] in Hwf. destruct Hwf as (-> & -> & _ & _).
    unfold occupied in Hocc. cbn [leaves filter] in Hocc.
    unfold leaf_length in Hocc. cbn [fst snd] in Hocc.
    destruct (Z.eqb_spec m0 0) as [->|]; [reflexivity|discriminate].
  - exfalso. cbn [wf] in Hwf. destruct Hwf as (-> & -> & Hs & -> & Hl & Hr).
    cbn [merged] in Hm. destruct Hm as (Hmc & Hml & Hmr).
    rewrite occupied_Split in Hocc. apply app_eq_nil in Hocc as [Hol Hor].
    rewrite (IHl _ _ Hl Hml Hol), (IHr _ _ Hr Hmr Hor) in Hmc. discriminate.
Qed.

(** One [release] seen from the block [q] names: the occupied leaves of the
    node managing that block lose the one starting at the released address
    and gain none. *)
Lemma release_focus (q : Path) :
  forall (t : Buddy) (a s p : Z),
    wf a s t ->
    0 <= snd (path_block a s q) ->
    fst (path_block a s q) <= p
    < fst (path_block a s q) + sizeToBytes (snd (path_block a s q)) ->
    forall lf,
      In lf (occupied (descend (snd (release t p)) q)) ->
      In lf (occupied (descend t q)) /\ leaf_start lf <> p.
Proof.
  assert (Hbase : forall t a s p, wf a s t ->
            forall lf, In lf (occupied (snd (release t p))) ->
                       In lf (occupied t) /\ leaf_start lf <> p).
  { intros t a s p Hwf lf Hin.
    destruct (release t p) as [ret t'] eqn:Hrel. cbn [snd] in Hin.
    rewrite (release_occupied _ _ _ _ _ _ Hwf Hrel) in Hin.
    apply filter_In in Hin as [Hin Hne]. split; [exact Hin|].
    destruct (Z.eqb_spec (leaf_start lf) p); [discriminate|assumption]. }
  induction q as [|d q IH]; intros t a s p Hwf Hs Hp lf Hin.
  - cbn [descend] in *. destruct t; exact (Hbase _ _ _ _ Hwf lf Hin).
  - destruct t as [a0 m0 s0|a0 m0 s0 l r].
    + assert (Hleaf : exists a1 m1 s1, snd (release (Leaf a0 m0 s0) p) = Leaf a1 m1 s1).
      { cbn. destruct (p =? a0); cbn; eauto. }
      destruct Hleaf as (a1 & m1 & s1 & E).
      replace (descend (Leaf a0 m0 s0) (d :: q)) with (Leaf a0 m0 s0)
        by (destruct d; reflexivity).
      replace (descend (snd (release (Leaf a0 m0 s0) p)) (d :: q))
        with (snd (release (Leaf a0 m0 s0) p)) in Hin
        by (rewrite E; destruct d; reflexivity).
      exact (Hbase _ _ _ _ Hwf lf Hin).
    + cbn [wf] in Hwf. destruct Hwf as (-> & -> & Hs1 & -> & Hl & Hr).
      pose proof (sizeToBytes_pos (s - 1) ltac:(lia)) as Hhalf.
      pose proof (sizeToBytes_double s Hs1) as Hdbl.
      destruct (release (Split a 0 s l r) p) as [ret t'] eqn:Hrel.
      cbn [snd] in Hin.
      destruct (release_Split_cases _ _ _ _ _ _ _ _ (proj1 (wf_root _ _ _ Hl)) Hrel)
        as (l' & r' & Hc & ->).
      destruct (merge_condition l' r') eqn:Emc.
      { exfalso. destruct d; cbn in Hin; exact Hin. }
      destruct d; cbn [descend path_block] in *.
      * pose proof (path_block_range q a (s - 1) Hs) as Hrange.
        assert (l' = snd (release l p)) as ->.
        { destruct Hc as [(_ & H & _)|[(_ & E & _)|[(_ & _ & H & _)|(_ & _ & H & _)]]];
            try (rewrite H; reflexivity).
          rewrite (proj1 (wf_root _ _ _ Hr)) in E. lia. }
        exact (IH l a (s - 1) p Hl Hs Hp lf Hin).
      * pose proof (path_block_range q (a + sizeToBytes (s - 1)) (s - 1) Hs) as Hrange.
        assert (r' = snd (release r p)) as ->.
        { destruct Hc as [(E & _)|[(_ & _ & H & _)|[(_ & _ & H & _)|(_ & _ & _ & H)]]];
            try (rewrite H; reflexivity); [lia|].
          pose proof (release_true_range _ _ _ _ _ Hl H). lia. }
        exact (IH r (a + sizeToBytes (s - 1)) (s - 1) p Hr Hs Hp lf Hin).
Qed.

Lemma release_all_cons (t : Buddy) (p : Z) (ps : list Z) :
  release_all t (p :: ps) = release_all (snd (release t p)) ps.
Proof. reflexivity. Qed.

Lemma release_all_wf (ps : list Z) :
  forall t a s, wf a s t -> wf a s (release_all t ps).
Proof.
  induction ps as [|p ps IH]; intros t a s Hwf; [exact Hwf|].
  rewrite release_all_cons. apply IH.
  destruct (release t p) as [ret t'] eqn:Hrel.
  exact (release_wf _ _ _ _ _ _ Hwf Hrel).
Qed.

Lemma release_all_merged (ps : list Z) :
  forall t a s, wf a s t -> merged t -> merged (release_all t ps).
Proof.
  induction ps as [|p ps IH]; intros t a s Hwf Hm; [exact Hm|].
  rewrite release_all_cons.
  destruct (release t p) as [ret t'] eqn:Hrel. cbn [snd].
  apply (IH t' a s).
  - exact (release_wf _ _ _ _ _ _ Hwf Hrel).
  - exact (release_merged _ _ _ _ _ _ Hwf Hm Hrel).
Qed.

Lemma release_all_focus (q : Path) (ps : list Z) :
  forall (t : Buddy) (a s : Z),
    wf a s t ->
    0 <= snd (path_block a s q) ->
    (forall p, In p ps ->
               fst (path_block a s q) <= p
               < fst (path_block a s q) + sizeToBytes (snd (path_block a s q))) ->
    forall lf,
      In lf (occupied (descend (release_all t ps) q)) ->
      In lf (occupied (descend t q)) /\ ~ In (leaf_start lf) ps.
Proof.
  induction ps as [|p ps IH]; intros t a s Hwf Hs Hps lf Hin.
  - cbn in Hin. auto.
  - rewrite release_all_cons in Hin.
    assert (Hwf1 : wf a s (snd (release t p))).
    { destruct (release t p) as [ret t'] eqn:Hrel.
      exact (release_wf _ _ _ _ _ _ Hwf Hrel). }
    destruct (IH _ _ _ Hwf1 Hs (fun p' H => Hps p' (or_intror H)) lf Hin)
      as [Hin1 Hnot].
    destruct (release_focus q t a s p Hwf Hs (Hps p (or_introl eq_refl)) lf Hin1)
      as [Hin0 Hne].
    split; [exact Hin0|]. intros [E|E]; [congruence|contradiction].
Qed.

(** A free unsplit leaf of sufficient order somewhere in the tree makes the
    search succeed. *)
Lemma check_from_some (minSize : Z) (t : Buddy) :
  forall a s q a' s',
    wf a s t -> getNode t q = Some (Leaf a' 0 s') -> minSize <= s' ->
    check_from minSize t <> None.
Proof.
  induction t as [a0 m0 s0|a0 m0 s0 l IHl r IHr]; intros a s q a' s' Hwf Hq Hk.
  - destruct q as [|d q]; [|destruct d; discriminate].
    injection Hq as -> -> ->. cbn [check_from getSize getLength].
    destruct (Z.ltb_spec s' minSize); [lia|]. discriminate.
  - destruct q as [|d q]; [discriminate|].
    pose proof (wf_getNode _ _ _ _ _ Hwf Hq) as (a1 & s1 & Hw1 & Hs1).
    cbn [wf] in Hw1. destruct Hw1 as (_ & <- & _).
    cbn [wf] in Hwf. destruct Hwf as (-> & -> & Hs & -> & Hl & Hr).
    cbn [check_from getSize getLength].
    assert (s' <= s - 1).
    { destruct d; cbn in Hq.
      - destruct (wf_getNode _ _ _ _ _ Hl Hq) as (a2 & s2 & Hw2 & Hs2).
        cbn in Hw2. lia.
      - destruct (wf_getNode _ _ _ _ _ Hr Hq) as (a2 & s2 & Hw2 & Hs2).
        cbn in Hw2. lia. }
    destruct (Z.ltb_spec s minSize); [lia|]. cbn [orb Z.eqb negb].
    destruct (check_from minSize l) eqn:El; [discriminate|].
    destruct (check_from minSize r) eqn:Er; [discriminate|].
    destruct d; cbn in Hq.
    + exact (IHl _ _ _ _ _ Hl Hq Hk).
    + exact (IHr _ _ _ _ _ Hr Hq Hk).
Qed.

Lemma release_all_reachable (base N lo : Z) (ps : list Z) :
  forall t, reachable base N lo t -> reachable base N lo (release_all t ps).
Proof.
  induction ps as [|p ps IH]; intros t Hr; [exact Hr|].
  rewrite release_all_cons. apply IH.
  destruct (release t p) as [ret t'] eqn:Hrel.
  exact (reach_release base N lo t p ret t' Hr Hrel).
Qed.

(** C6, as stated, fails: after a request of 0 bytes the root is split and
    nothing under it is occupied, so "all occupied leaves" are released by
    releasing nothing; the root stays split and a request for its full
    capacity finds no candidate. *)
Lemma zero_bytes_block_not_restored :
  reachable 4096 4 0 after_zero_bytes
  /\ occupied after_zero_bytes = []
  /\ isTerminal (release_all after_zero_bytes []) = true
  /\ allocate (release_all after_zero_bytes []) heap0
              (getMaxLength after_zero_bytes) 0
     = Returns (None, after_zero_bytes, heap0).
Proof.
  split; [exact after_zero_bytes_reachable|]. repeat split; reflexivity.
Qed.

(** C6, amended: in a state reached with requests of at least one byte, let
    [X] be any node of the tree.  Once every occupied leaf under [X] has
    been released (in any order, by addresses inside [X]'s block), [X]'s own
    [release] calls have merged it back into an unsplit leaf with
    [memLength = 0]; in the tree, the node managing [X]'s block is such a
    free unsplit leaf ([X] itself, or the ancestor into which the cascade
    merged it), it qualifies as a candidate for a request of [X]'s full
    capacity, and that request succeeds. *)
Theorem release_all_restores_block
        (base N : Z) (t X : Buddy) (q : Path) (ps : list Z) :
  0 <= N <= 46 -> reachable base N 1 t ->
  getNode t q = Some X ->
  (forall lf, In lf (occupied X) -> In (leaf_start lf) ps) ->
  (forall p, In p ps -> getLocation X <= p < getLocation X + getMaxLength X) ->
  release_all X ps = new_Buddy (getLocation X) (getSize X)
  /\ exists a s,
      descend (release_all t ps) q = Leaf a 0 s
      /\ a <= getLocation X
      /\ getLocation X + getMaxLength X <= a + sizeToBytes s
      /\ qualifies (getMaxLength X) (Leaf a 0 s) = true
      /\ forall heap data,
          exists addr t' heap',
            allocate (release_all t ps) heap (getMaxLength X) data
            = Returns (Some addr, t', heap').
Proof.
  intros HN Hr HX Hcover Hps.
  assert (Hwf : wf base N t) by (apply (reachable_wf base N HN 1); [lia|exact Hr]).
  assert (Hm : merged t) by exact (reachable_merged base N HN t Hr).
  pose proof (wf_path_block _ _ _ _ _ Hwf HX) as HwX.
  destruct (wf_root _ _ _ HwX) as (HaX & HsX & Hs0).
  unfold getMaxLength in *. rewrite HaX, HsX in *.
  set (ax := fst (path_block base N q)) in *.
  set (sx := snd (path_block base N q)) in *.
  assert (Hempty : forall u a s p',
             wf a s u -> merged u -> descend u p' = X ->
             fst (path_block a s p') = ax -> snd (path_block a s p') = sx ->
             occupied (descend (release_all u ps) p') = []).
  { intros u a s p' Hu Hmu Hd Ha Hs.
    destruct (occupied (descend (release_all u ps) p')) as [|lf rest] eqn:E;
      [reflexivity|exfalso].
    destruct (release_all_focus p' ps u a s Hu) with (lf := lf) as [Hin Hnot].
    - rewrite Hs. exact Hs0.
    - rewrite Ha, Hs. exact Hps.
    - rewrite E. left. reflexivity.
    - rewrite Hd in Hin. exact (Hnot (Hcover lf Hin)). }
  split.
  - apply (free_when_empty _ ax sx).
    + apply release_all_wf. exact HwX.
    + apply (release_all_merged ps X ax sx HwX). exact (merged_getNode _ _ _ Hm HX).
    + apply (Hempty X ax sx [] HwX (merged_getNode _ _ _ Hm HX)); reflexivity.
  - set (t' := release_all t ps).
    assert (Hwf' : wf base N t') by (apply release_all_wf; exact Hwf).
    assert (Hm' : merged t') by (apply (release_all_merged ps t base N Hwf); exact Hm).
    destruct (descend_covers t' base N q Hwf' Hs0) as (a' & s' & HwY & Hlo & Hhi).
    destruct (descend_is_node t' q) as (q' & Hq').
    pose proof (Hempty t base N q Hwf Hm (descend_getNode _ _ _ HX) eq_refl eq_refl)
      as HoccY.
    pose proof (free_when_empty _ _ _ HwY (merged_getNode _ _ _ Hm' Hq') HoccY) as HY.
    fold t' in HoccY, HY. fold ax sx in Hlo, Hhi.
    destruct (wf_root _ _ _ HwY) as (_ & _ & Hs').
    pose proof (sizeToBytes_pos sx Hs0) as Hpos.
    assert (Hord : sx <= s').
    { destruct (Z.le_gt_cases sx s') as [|Hgt]; [assumption|].
      pose proof (sizeToBytes_strict s' sx). lia. }
    exists a', s'. split; [exact HY|]. split; [exact Hlo|]. split; [exact Hhi|].
    split.
    + unfold qualifies, getMaxLength. cbn [getLength getSize Z.eqb andb].
      apply Z.leb_le. apply sizeToBytes_mono. lia.
    + intros heap data.
      assert (Hb : 0 <= sizeToBytes sx <= 2 ^ 63).
      { rewrite sizeToBytes_nonneg by lia. split; [apply Z.pow_nonneg; lia|].
        pose proof (wf_getNode _ _ _ _ _ Hwf HX) as (a1 & s1 & Hw1 & Hs1).
        destruct (wf_root _ _ _ Hw1) as (_ & Hsz & _).
        apply Z.pow_le_mono_r; lia. }
      rewrite (allocate_eq _ _ _ _ _ _ Hwf') by lia.
      replace (Z.log2_up (sizeToBytes sx) - 16) with sx
        by (rewrite sizeToBytes_nonneg, Z.log2_up_pow2 by lia; lia).
      rewrite HY in Hq'.
      pose proof (check_from_some sx t' _ _ _ _ _ Hwf' Hq' Hord) as Hsome.
      destruct (check_from sx t') as [c|] eqn:Hc; [|contradiction].
      destruct (check_from_node _ _ _ Hc) as (ac & sc & Hn & _).
      rewrite Hn. eauto.
Qed.

Lemma release_all_restores_block_witness :
  release_all (Split 4096 0 3
                     (Split 4096 0 2 (Leaf 4096 70000 1) (Leaf 135168 0 1))
                     (Leaf 266240 0 2))
              [4096]
  = new_Buddy 4096 3
  /\ exists a s,
      descend (release_all two_blocks [4096]) [L] = Leaf a 0 s
      /\ a <= 4096
      /\ 4096 + sizeToBytes 3 <= a + sizeToBytes s
      /\ qualifies (sizeToBytes 3) (Leaf a 0 s) = true
      /\ forall heap data,
          exists addr t' heap',
            allocate (release_all two_blocks [4096]) heap (sizeToBytes 3) data
            = Returns (Some addr, t', heap').
Proof.
  apply (release_all_restores_block 4096 4 two_blocks
           (Split 4096 0 3
                  (Split 4096 0 2 (Leaf 4096 70000 1) (Leaf 135168 0 1))
                  (Leaf 266240 0 2))
           [L] [4096]).
  - lia.
  - apply two_blocks_reachable. lia.
  - reflexivity.
  - intros lf Hin. cbn in Hin. destruct Hin as [<-|[]]. left. reflexivity.
  - intros p Hin. destruct Hin as [<-|[]]. cbn. lia.
Defined.

(** * Beyond the claims: more of the allocator *)

(** ** Leaves under a pointer *)

Lemma leaves_modify (t : Buddy) :
  forall p n,
    getNode t p = Some n ->
    exists pre post,
      leaves t = pre ++ leaves n ++ post
      /\ forall f, leaves (modify p f t) = pre ++ leaves (f n) ++ post.
Proof.
  induction t as [a0 m0 s0|a0 m0 s0 l IHl r IHr]; intros p n Hn.
  - destruct p as [|d p]; [|destruct d; discriminate].
    injection Hn as <-. exists [], []. cbn. split; [reflexivity|].
    intros f. rewrite app_nil_r. reflexivity.
  - destruct p as [|d p].
    + injection Hn as <-. exists [], []. cbn [modify app]. split.
      * rewrite app_nil_r. reflexivity.
      * intros f. rewrite app_nil_r. reflexivity.
    + destruct d; cbn in Hn.
      * destruct (IHl _ _ Hn) as (pre & post & E & Hf).
        exists pre, (post ++ leaves r). cbn [leaves modify]. split.
        -- rewrite E, <- !app_assoc. reflexivity.
        -- intros f. rewrite Hf, <- !app_assoc. reflexivity.
      * destruct (IHr _ _ Hn) as (pre & post & E & Hf).
        exists (leaves l ++ pre), post. cbn [leaves modify]. split.
        -- rewrite E, <- !app_assoc. reflexivity.
        -- intros f. rewrite Hf, <- !app_assoc. reflexivity.
Qed.

Lemma ForallOrdPairs_middle {A : Type} (R : A -> A -> Prop) (l1 l2 : list A) (x : A) :
  ForallOrdPairs R (l1 ++ x :: l2) ->
  (forall y, In y l1 -> R y x) /\ (forall z, In z l2 -> R x z).
Proof.
  induction l1 as [|u l1 IH]; cbn; intros H; inversion H as [|? ? Hall Hrest]; subst.
  - split; [intros y []|]. intros z Hz. rewrite Forall_forall in Hall. auto.
  - destruct (IH Hrest) as [H1 H2]. split; [|exact H2].
    intros y [<-|Hy]; [|auto].
    rewrite Forall_forall in Hall. apply Hall. apply in_or_app. right. left. reflexivity.
Qed.

(** The leaves [allocate] creates under the candidate: the leaf that takes
    the data comes first, every other new leaf is free. *)
Lemma place_leaves (numBytes : Z) (k : nat) :
  forall a s,
    exists sf frees,
      leaves (place k a s numBytes) = (a, numBytes, sf) :: frees
      /\ Forall leaf_free frees
      /\ sf <= s
      /\ (0 <= s -> 0 <= sf)
      /\ (0 <= s -> numBytes <= sizeToBytes s -> numBytes <= sizeToBytes sf)
      /\ (0 <= s -> (Z.to_nat s <= k)%nat ->
          sizeToBytes sf <= numBytes * 2 \/ sf = 0).
Proof.
  induction k as [|k IH]; intros a s; cbn [place].
  - exists s, []. cbn [leaves]. repeat split; auto; try lia.
  - destruct (Z.gtb_spec (sizeToBytes s) (numBytes * 2)) as [Hgt|Hle]; cbn [andb].
    + destruct (Z.gtb_spec s 0) as [Hpos|Hnpos].
      * destruct (IH a (s - 1)) as (sf & frees & E & Hfree & H1 & H2 & H3 & H4).
        exists sf, (frees ++ [(a + sizeToBytes (s - 1), 0, s - 1)]).
        cbn [leaves]. rewrite E. split; [reflexivity|].
        split; [apply Forall_app; split; [exact Hfree|repeat constructor]|].
        pose proof (sizeToBytes_double s ltac:(lia)).
        split; [lia|]. split; [lia|]. split.
        -- intros Hs Hb. apply H3; lia.
        -- intros Hs Hk. apply H4; lia.
      * exists s, []. cbn [leaves]. repeat split; auto; try lia.
    + exists s, []. cbn [leaves]. repeat split; auto; try lia.
Qed.

Lemma getNode_leaf_In (t : Buddy) :
  forall p a m s, getNode t p = Some (Leaf a m s) -> In (a, m, s) (leaves t).
Proof.
  intros p a m s Hn. destruct (leaves_modify _ _ _ Hn) as (pre & post & E & _).
  rewrite E. apply in_or_app. right. left. reflexivity.
Qed.

(** What a successful [allocate] does to the list of leaves: the free
    candidate leaf is replaced, in place, by the leaf that takes the data
    followed by free leaves. *)
Lemma allocate_leaves (t : Buddy) (heap : Heap) (numBytes data a0 s0 a : Z)
      (t' : Buddy) (heap' : Heap) :
  wf a0 s0 t -> s0 <= 46 -> 0 <= numBytes ->
  allocate t heap numBytes data = Returns (Some a, t', heap') ->
  exists pre post s sf frees,
    leaves t = pre ++ (a, 0, s) :: post
    /\ leaves t' = pre ++ ((a, numBytes, sf) :: frees) ++ post
    /\ Forall leaf_free frees
    /\ 0 <= sf <= s
    /\ numBytes <= sizeToBytes sf
    /\ (sizeToBytes sf <= numBytes * 2 \/ sf = 0)
    /\ heap' = memcpy heap a data numBytes.
Proof.
  intros Hwf Hs0 Hb Hrun.
  destruct (allocate_cases _ _ _ _ _ _ _ _ _ Hwf Hs0 Hb Hrun)
    as [(_ & E & _)|(p & a1 & s & _ & Hn & Hs & Hfit & E & -> & ->)]; [discriminate|].
  injection E as <-.
  destruct (leaves_modify _ _ _ Hn) as (pre & post & El & Hf).
  destruct (place_leaves numBytes (Z.to_nat s) a s)
    as (sf & frees & Ep & Hfree & H1 & H2 & H3 & H4).
  exists pre, post, s, sf, frees. cbn [leaves app] in El.
  rewrite Hf, Ep.
  split; [exact El|]. split; [reflexivity|]. split; [exact Hfree|].
  split; [lia|]. split; [apply H3; lia|]. split; [apply H4; lia|reflexivity].
Qed.

(** ** Where [allocate] puts the data *)

Lemma leaf_capacity_pos (t : Buddy) (a s : Z) (lf : Z * Z * Z) :
  wf a s t -> In lf (leaves t) -> 0 < leaf_capacity lf.
Proof.
  intros Hwf Hin. pose proof (wf_leaves_range _ _ _ _ Hwf Hin) as (_ & _ & H & _).
  apply sizeToBytes_pos. exact H.
Qed.

(** X1.  In every reachable state a successful [allocate] returns the start
    of an unsplit leaf inside the region, that leaf records exactly the
    requested length, it is large enough for the request, and it is at most
    twice the request unless it already is a block of the minimum size. *)
Theorem allocate_tight_fit (base N : Z) (t : Buddy) (heap : Heap)
        (numBytes data a : Z) (t' : Buddy) (heap' : Heap) :
  0 <= N <= 46 -> reachable base N 0 t -> 0 <= numBytes ->
  allocate t heap numBytes data = Returns (Some a, t', heap') ->
  exists sf,
    leaf_at t' a = Some (a, numBytes, sf)
    /\ 0 <= sf <= N
    /\ numBytes <= sizeToBytes sf
    /\ (sizeToBytes sf <= numBytes * 2 \/ sf = 0)
    /\ base <= a
    /\ a + sizeToBytes sf <= base + sizeToBytes N.
Proof.
  intros HN Hr Hb Hrun.
  assert (Hwf : wf base N t) by (apply (reachable_wf base N HN 0); [lia|exact Hr]).
  destruct (allocate_leaves _ _ _ _ _ _ _ _ _ Hwf (proj2 HN) Hb Hrun)
    as (pre & post & s & sf & frees & El & El' & Hfree & Hsf & Hfit & Htight & _).
  assert (Hin : In (a, 0, s) (leaves t)).
  { rewrite El. apply in_or_app. right. left. reflexivity. }
  pose proof (wf_leaves_range _ _ _ _ Hwf Hin) as (Hlo & Hhi & Hs & _).
  unfold leaf_start, leaf_capacity in Hlo, Hhi. cbn [fst snd] in Hlo, Hhi, Hs.
  assert (HsN : s <= N).
  { destruct (Z.le_gt_cases s N) as [|Hgt]; [assumption|].
    pose proof (sizeToBytes_strict N s). lia. }
  exists sf. split.
  - unfold leaf_at. rewrite El', find_app_first.
    rewrite find_all_false.
    + cbn [app find]. unfold leaf_start at 1. cbn [fst]. rewrite Z.eqb_refl. reflexivity.
    + intros y Hy.
      pose proof (wf_leaves_ordered _ _ _ Hwf) as Hord. rewrite El in Hord.
      destruct (ForallOrdPairs_middle _ _ _ _ Hord) as [Hbefore _].
      specialize (Hbefore y Hy).
      assert (In y (leaves t)) by (rewrite El; apply in_or_app; left; exact Hy).
      pose proof (leaf_capacity_pos _ _ _ _ Hwf H).
      destruct (Z.eqb_spec (leaf_start y) a) as [E|]; [|reflexivity].
      unfold leaf_start, leaf_capacity in *. cbn [fst snd] in *. lia.
  - pose proof (sizeToBytes_mono sf s ltac:(lia)).
    repeat split; try lia; exact Htight.
Qed.

Lemma allocate_tight_fit_witness :
  exists sf,
    leaf_at two_blocks 528384 = Some (528384, 500000, sf)
    /\ 0 <= sf <= 4
    /\ 500000 <= sizeToBytes sf
    /\ (sizeToBytes sf <= 500000 * 2 \/ sf = 0)
    /\ 4096 <= 528384
    /\ 528384 + sizeToBytes sf <= 4096 + sizeToBytes 4.
Proof.
  apply (allocate_tight_fit 4096 4
           (Split 4096 0 4
                  (Split 4096 0 3
                         (Split 4096 0 2 (Leaf 4096 70000 1) (Leaf 135168 0 1))
                         (Leaf 266240 0 2))
                  (Leaf 528384 0 3))
           heap0 500000 0 528384 two_blocks (memcpy heap0 528384 0 500000)).
  - lia.
  - apply (reach_allocate 4096 4 0 fresh heap0 70000 0 (Some 4096) _
                          (memcpy heap0 4096 0 70000)).
    + apply reach_new.
    + unfold SIZE_T_MOD. lia.
    + reflexivity.
  - lia.
  - reflexivity.
Defined.

Lemma allocate_live_data (t : Buddy) (heap : Heap) (numBytes data a0 s0 : Z)
      (ret : option Z) (t' : Buddy) (heap' : Heap) :
  wf a0 s0 t -> s0 <= 46 -> 0 <= numBytes ->
  allocate t heap numBytes data = Returns (ret, t', heap') ->
  forall lf,
    In lf (occupied t) ->
    In lf (occupied t')
    /\ forall x, leaf_start lf <= x < leaf_start lf + leaf_length lf ->
                 heap' x = heap x.
Proof.
  intros Hwf Hs0 Hb Hrun lf Hocc.
  destruct ret as [a|].
  2:{ destruct (allocate_NULL_unchanged _ _ _ _ _ _ Hrun) as [-> ->]. auto. }
  destruct (allocate_leaves _ _ _ _ _ _ _ _ _ Hwf Hs0 Hb Hrun)
    as (pre & post & s & sf & frees & El & El' & Hfree & Hsf & Hfit & _ & ->).
  unfold occupied in Hocc. apply filter_In in Hocc as [Hin Hlen].
  pose proof (wf_leaves_range _ _ _ _ Hwf Hin) as (_ & _ & _ & Hcap).
  pose proof (wf_leaves_ordered _ _ _ Hwf) as Hord. rewrite El in Hord.
  destruct (ForallOrdPairs_middle _ _ _ _ Hord) as [Hbefore Hafter].
  rewrite El in Hin. apply in_app_or in Hin.
  assert (Hside : In lf pre \/ In lf post).
  { destruct Hin as [H|[<-|H]]; auto. cbn in Hlen. discriminate. }
  split.
  - unfold occupied. apply filter_In. split; [|exact Hlen].
    rewrite El'. destruct Hside as [H|H].
    + apply in_or_app. left. exact H.
    + apply in_or_app. right. apply in_or_app. right. exact H.
  - intros x Hx. unfold memcpy.
    pose proof (sizeToBytes_mono sf s ltac:(lia)) as Hmono.
    assert (Hout : ~ (a <= x < a + numBytes)).
    { destruct Hside as [H|H].
      - specialize (Hbefore lf H).
        unfold leaf_start, leaf_capacity, leaf_length in *. cbn [fst snd] in *. lia.
      - specialize (Hafter lf H).
        unfold leaf_start, leaf_capacity, leaf_length in *. cbn [fst snd] in *. lia. }
    destruct (Z.leb_spec a x), (Z.ltb_spec x (a + numBytes)); cbn [andb];
      try reflexivity. lia.
Qed.

(** X2.  [allocate] never writes over live data: the bytes of every leaf
    that was occupied before the call read the same after it, and those
    leaves stay occupied with their lengths. *)
Theorem allocate_preserves_live_data (base N : Z) (t : Buddy) (heap : Heap)
        (numBytes data : Z) (ret : option Z) (t' : Buddy) (heap' : Heap) :
  0 <= N <= 46 -> reachable base N 0 t -> 0 <= numBytes ->
  allocate t heap numBytes data = Returns (ret, t', heap') ->
  forall lf,
    In lf (occupied t) ->
    In lf (occupied t')
    /\ forall x, leaf_start lf <= x < leaf_start lf + leaf_length lf ->
                 heap' x = heap x.
Proof.
  intros HN Hr Hb Hrun.
  assert (Hwf : wf base N t) by (apply (reachable_wf base N HN 0); [lia|exact Hr]).
  exact (allocate_live_data _ _ _ _ _ _ _ _ _ Hwf (proj2 HN) Hb Hrun).
Qed.

Lemma allocate_preserves_live_data_witness :
  In (4096, 70000, 1) (occupied two_blocks)
  /\ forall x, 4096 <= x < 4096 + 70000 ->
               memcpy heap0 528384 0 500000 x = heap0 x.
Proof.
  apply (allocate_preserves_live_data 4096 4
           (Split 4096 0 4
                  (Split 4096 0 3
                         (Split 4096 0 2 (Leaf 4096 70000 1) (Leaf 135168 0 1))
                         (Leaf 266240 0 2))
                  (Leaf 528384 0 3))
           heap0 500000 0 (Some 528384) two_blocks (memcpy heap0 528384 0 500000)).
  - lia.
  - apply (reach_allocate 4096 4 0 fresh heap0 70000 0 (Some 4096) _
                          (memcpy heap0 4096 0 70000)).
    + apply reach_new.
    + unfold SIZE_T_MOD. lia.
    + reflexivity.
  - lia.
  - reflexivity.
  - cbn. left. reflexivity.
Defined.

(** ** Bytes in use *)

Lemma total_used_sum (t : Buddy) : total_used t = sum_lengths (leaves t).
Proof. reflexivity. Qed.

Lemma sum_lengths_app (l r : list (Z * Z * Z)) :
  sum_lengths (l ++ r) = sum_lengths l + sum_lengths r.
Proof. apply total_used_app. Qed.

Lemma sum_lengths_free (ls : list (Z * Z * Z)) :
  Forall leaf_free ls -> sum_lengths ls = 0.
Proof.
  induction 1 as [|x ls Hx _ IH]; [reflexivity|].
  unfold sum_lengths in *. cbn [fold_right]. unfold leaf_free in Hx. lia.
Qed.

(** X3.  A successful [allocate] of [numBytes] bytes raises the bytes in use
    by exactly [numBytes]; for a request of at least one byte the occupied
    leaves afterwards are the ones from before plus the leaf at the returned
    address. *)
Theorem allocate_accounting (base N : Z) (t : Buddy) (heap : Heap)
        (numBytes data a : Z) (t' : Buddy) (heap' : Heap) :
  0 <= N <= 46 -> reachable base N 0 t -> 0 <= numBytes ->
  allocate t heap numBytes data = Returns (Some a, t', heap') ->
  total_used t' = total_used t + numBytes
  /\ (1 <= numBytes ->
      exists sf,
        forall lf, In lf (occupied t')
                   <-> lf = (a, numBytes, sf) \/ In lf (occupied t)).
Proof.
  intros HN Hr Hb Hrun.
  assert (Hwf : wf base N t) by (apply (reachable_wf base N HN 0); [lia|exact Hr]).
  destruct (allocate_leaves _ _ _ _ _ _ _ _ _ Hwf (proj2 HN) Hb Hrun)
    as (pre & post & s & sf & frees & El & El' & Hfree & _).
  split.
  - rewrite !total_used_sum, El, El'.
    change ((a, numBytes, sf) :: frees) with ([(a, numBytes, sf)] ++ frees).
    change ((a, 0, s) :: post) with ([(a, 0, s)] ++ post).
    rewrite !sum_lengths_app, (sum_lengths_free _ Hfree).
    unfold sum_lengths, leaf_length. cbn [fold_right fst snd]. lia.
  - intros Hb1. exists sf. intros lf. unfold occupied.
    rewrite !filter_In, El, El'. rewrite !in_app_iff. cbn [In].
    rewrite Forall_forall in Hfree. unfold leaf_free in Hfree.
    split.
    + intros [[H|[[H|H]|H]] Hlen]; auto.
      rewrite (Hfree lf H) in Hlen. discriminate.
    + intros [->|[[H|[<-|H]] Hlen]]; auto.
      * split; [auto|]. unfold leaf_length. cbn [fst snd].
        destruct (Z.eqb_spec numBytes 0); [lia|reflexivity].
      * cbn in Hlen. discriminate.
Qed.

Lemma allocate_accounting_witness :
  total_used two_blocks = 70000 + 500000.
Proof.
  apply (allocate_accounting 4096 4
           (Split 4096 0 4
                  (Split 4096 0 3
                         (Split 4096 0 2 (Leaf 4096 70000 1) (Leaf 135168 0 1))
                         (Leaf 266240 0 2))
                  (Leaf 528384 0 3))
           heap0 500000 0 528384 two_blocks (memcpy heap0 528384 0 500000)).
  - lia.
  - apply (reach_allocate 4096 4 0 fresh heap0 70000 0 (Some 4096) _
                          (memcpy heap0 4096 0 70000)).
    + apply reach_new.
    + unfold SIZE_T_MOD. lia.
    + reflexivity.
  - lia.
  - reflexivity.
Defined.

Lemma sum_lengths_released (p : Z) (ls : list (Z * Z * Z)) :
  ForallOrdPairs (fun u v => leaf_start u + leaf_capacity u <= leaf_start v) ls ->
  Forall (fun lf => 0 < leaf_capacity lf) ls ->
  sum_lengths (filter (fun lf => negb (leaf_start lf =? p))
                      (filter (fun lf => negb (leaf_length lf =? 0)) ls))
  = sum_lengths ls
    - match find (fun lf => leaf_start lf =? p) ls with
      | Some lf => leaf_length lf
      | None => 0
      end.
Proof.
  induction 1 as [|x ls Hall _ IH]; intros Hpos; [reflexivity|].
  inversion Hpos as [|? ? Hx Hpos']; subst. specialize (IH Hpos').
  assert (Hnone : leaf_start x = p -> find (fun lf => leaf_start lf =? p) ls = None).
  { intros E. apply find_all_false. intros y Hy.
    rewrite Forall_forall in Hall. specialize (Hall y Hy).
    destruct (Z.eqb_spec (leaf_start y) p); [lia|reflexivity]. }
  unfold sum_lengths in *. cbn [filter find].
  destruct (Z.eqb_spec (leaf_length x) 0) as [E0|E0]; cbn [negb filter];
    destruct (Z.eqb_spec (leaf_start x) p) as [Ep|Ep]; cbn [negb fold_right].
  - rewrite IH, (Hnone Ep). lia.
  - rewrite IH. lia.
  - rewrite IH, (Hnone Ep). lia.
  - rewrite IH. lia.
Qed.

(** X4.  In every reachable state [release p] clears exactly the leaf that
    starts at [p]: every other occupied leaf keeps its length, and the bytes
    in use drop by the length that leaf recorded (by nothing when no leaf
    starts at [p]). *)
Theorem release_accounting (base N : Z) (t : Buddy) (p : Z) (ret : bool) (t' : Buddy) :
  0 <= N <= 46 -> reachable base N 0 t ->
  release t p = (ret, t') ->
  occupied t' = filter (fun lf => negb (leaf_start lf =? p)) (occupied t)
  /\ total_used t'
     = total_used t
       - match leaf_at t p with Some lf => leaf_length lf | None => 0 end.
Proof.
  intros HN Hr Hrel.
  assert (Hwf : wf base N t) by (apply (reachable_wf base N HN 0); [lia|exact Hr]).
  pose proof (release_occupied _ _ _ _ _ _ Hwf Hrel) as Hocc.
  split; [exact Hocc|].
  assert (Hnz : forall ls, sum_lengths ls
                           = sum_lengths (filter (fun lf => negb (leaf_length lf =? 0)) ls)).
  { induction ls as [|x ls IH]; [reflexivity|].
    unfold sum_lengths in *. cbn [filter fold_right].
    destruct (Z.eqb_spec (leaf_length x) 0) as [E|E]; cbn [negb fold_right]; lia. }
  rewrite (total_used_sum t'), (Hnz (leaves t')).
  change (filter (fun lf => negb (leaf_length lf =? 0)) (leaves t')) with (occupied t').
  rewrite Hocc. unfold occupied, leaf_at.
  apply sum_lengths_released.
  - exact (wf_leaves_ordered _ _ _ Hwf).
  - apply Forall_forall. intros lf Hin. exact (leaf_capacity_pos _ _ _ _ Hwf Hin).
Qed.

Lemma release_accounting_witness :
  total_used (snd (release two_blocks 4096)) = total_used two_blocks - 70000.
Proof.
  apply (release_accounting 4096 4 two_blocks 4096 true
           (Split 4096 0 4 (Leaf 4096 0 3) (Leaf 528384 500000 3))).
  - lia.
  - apply two_blocks_reachable. lia.
  - reflexivity.
Defined.

(** ** [release] undoes [allocate] *)

Lemma place_start (numBytes : Z) (k : nat) (a s : Z) :
  getLocation (place k a s numBytes) = a.
Proof.
  destruct k; cbn [place]; [reflexivity|].
  destruct ((sizeToBytes s >? numBytes * 2) && (s >? 0)); reflexivity.
Qed.

Lemma release_place (numBytes : Z) (k : nat) :
  forall a s, release (place k a s numBytes) a = (true, Leaf a 0 s).
Proof.
  induction k as [|k IH]; intros a s; cbn [place].
  - cbn. rewrite Z.eqb_refl. reflexivity.
  - destruct ((sizeToBytes s >? numBytes * 2) && (s >? 0)).
    + rewrite release_Split by apply place_start.
      rewrite Z.eqb_refl, IH. reflexivity.
    + cbn. rewrite Z.eqb_refl. reflexivity.
Qed.

Lemma release_in_context (sub : Buddy) (a s : Z) :
  wf a s sub -> release sub a = (true, Leaf a 0 s) ->
  forall (p : Path) (t : Buddy) (a0 s0 : Z),
    wf a0 s0 t -> merged t -> getNode t p = Some (Leaf a 0 s) ->
    release (modify p (fun _ => sub) t) a = (true, t).
Proof.
  intros Hsub Hrel p. induction p as [|d p IH]; intros t a0 s0 Hwf Hm Hn.
  - cbn in Hn. injection Hn as ->. exact Hrel.
  - destruct t as [|a1 m1 s1 l r]; [destruct d; discriminate|].
    cbn [wf] in Hwf. destruct Hwf as (-> & -> & Hs & -> & Hl & Hr).
    cbn [merged] in Hm. destruct Hm as (Hmc & Hml & Hmr).
    pose proof (sizeToBytes_pos (s0 - 1) ltac:(lia)) as Hhalf.
    destruct d; cbn in Hn; cbn [modify].
    + pose proof (wf_leaves_range _ _ _ _ Hl (getNode_leaf_In _ _ _ _ _ Hn))
        as (Hlo & Hhi & Hs' & _).
      unfold leaf_start, leaf_capacity in Hlo, Hhi. cbn [fst snd] in Hlo, Hhi, Hs'.
      pose proof (sizeToBytes_pos s Hs').
      assert (Hwl : wf a0 (s0 - 1) (modify p (fun _ => sub) l)).
      { apply (wf_modify _ _ _ _ _ _ Hl Hn). intros a' s' _ Hw.
        cbn in Hw. destruct Hw as (<- & <- & _). exact Hsub. }
      rewrite release_Split by apply (wf_root _ _ _ Hwl).
      rewrite (IH l _ _ Hl Hml Hn).
      destruct (Z.eqb_spec a a0); [rewrite Hmc; reflexivity|].
      destruct (Z.eqb_spec a (getLocation r)) as [E|_].
      * rewrite (proj1 (wf_root _ _ _ Hr)) in E. lia.
      * rewrite Hmc. reflexivity.
    + pose proof (wf_leaves_range _ _ _ _ Hr (getNode_leaf_In _ _ _ _ _ Hn))
        as (Hlo & Hhi & Hs' & _).
      unfold leaf_start, leaf_capacity in Hlo, Hhi. cbn [fst snd] in Hlo, Hhi, Hs'.
      rewrite release_Split by apply (wf_root _ _ _ Hl).
      rewrite (IH r _ _ Hr Hmr Hn).
      destruct (Z.eqb_spec a a0); [lia|].
      assert (Hwr : wf (a0 + sizeToBytes (s0 - 1)) (s0 - 1) (modify p (fun _ => sub) r)).
      { apply (wf_modify _ _ _ _ _ _ Hr Hn). intros a' s' _ Hw.
        cbn in Hw. destruct Hw as (<- & <- & _). exact Hsub. }
      destruct (Z.eqb_spec a (getLocation (modify p (fun _ => sub) r)));
        [rewrite Hmc; reflexivity|].
      destruct (release l a) as [bl l1] eqn:El.
      destruct bl.
      * pose proof (release_true_range _ _ _ _ _ Hl El). lia.
      * rewrite (release_false_id _ _ _ _ _ Hl Hml El), Hmc. reflexivity.
Qed.

(** X5.  When requests are for at least one byte, releasing the address an
    [allocate] call has just returned succeeds and gives back exactly the
    tree from before that call: the merges undo every split it made. *)
Theorem release_undoes_allocate (base N : Z) (t : Buddy) (heap : Heap)
        (numBytes data a : Z) (t' : Buddy) (heap' : Heap) :
  0 <= N <= 46 -> reachable base N 1 t -> 1 <= numBytes ->
  allocate t heap numBytes data = Returns (Some a, t', heap') ->
  release t' a = (true, t).
Proof.
  intros HN Hr Hb Hrun.
  assert (Hwf : wf base N t) by (apply (reachable_wf base N HN 1); [lia|exact Hr]).
  assert (Hm : merged t) by exact (reachable_merged base N HN t Hr).
  assert (Hb0 : 0 <= numBytes) by lia.
  destruct (allocate_cases _ _ _ _ _ _ _ _ _ Hwf (proj2 HN) Hb0 Hrun)
    as [(_ & E & _)|(p & a1 & s & _ & Hn & Hs & Hfit & E & -> & _)]; [discriminate|].
  injection E as <-.
  apply (release_in_context _ a s) with (a0 := base) (s0 := N); auto.
  - apply wf_place; lia.
  - apply release_place.
Qed.

Lemma release_undoes_allocate_witness :
  release two_blocks 528384
  = (true, Split 4096 0 4
                 (Split 4096 0 3
                        (Split 4096 0 2 (Leaf 4096 70000 1) (Leaf 135168 0 1))
                        (Leaf 266240 0 2))
                 (Leaf 528384 0 3)).
Proof.
  apply (release_undoes_allocate 4096 4 _ heap0 500000 0 528384 two_blocks
                                 (memcpy heap0 528384 0 500000)).
  - lia.
  - apply (reach_allocate 4096 4 1 fresh heap0 70000 0 (Some 4096) _
                          (memcpy heap0 4096 0 70000)).
    + apply reach_new.
    + unfold SIZE_T_MOD. lia.
    + reflexivity.
  - lia.
  - reflexivity.
Defined.

(** ** Data stay where [allocate] put them *)

Lemma run_keeps_live_data (base N : Z) (lf : Z * Z * Z) :
  0 <= N <= 46 ->
  forall (calls : list Call) (t : Buddy) (heap : Heap) (t2 : Buddy) (heap2 : Heap),
    reachable base N 0 t ->
    In lf (occupied t) ->
    sizes_in_range calls ->
    ~ In (CallRelease (leaf_start lf)) calls ->
    run calls t heap = Returns (t2, heap2) ->
    reachable base N 0 t2
    /\ In lf (occupied t2)
    /\ forall x, leaf_start lf <= x < leaf_start lf + leaf_length lf ->
                 heap2 x = heap x.
Proof.
  intros HN calls. induction calls as [|c calls IH];
    intros t heap t2 heap2 Hr Hocc Hsz Hnot Hrun.
  - cbn in Hrun. injection Hrun as <- <-. auto.
  - assert (Hwf : wf base N t) by (apply (reachable_wf base N HN 0); [lia|exact Hr]).
    assert (Hsz' : sizes_in_range calls).
    { intros b d Hin. apply (Hsz b d). right. exact Hin. }
    assert (Hnot' : ~ In (CallRelease (leaf_start lf)) calls).
    { intros Hin. apply Hnot. right. exact Hin. }
    destruct c as [b d|p]; cbn [run] in Hrun.
    + destruct (allocate t heap b d) as [[[ret t1] heap1]|] eqn:Ha;
        cbn [bind fst snd] in Hrun; [|discriminate].
      assert (Hb : 0 <= b < SIZE_T_MOD) by (apply (Hsz b d); left; reflexivity).
      destruct (allocate_live_data _ _ _ _ _ _ _ _ _ Hwf (proj2 HN) (proj1 Hb) Ha lf Hocc)
        as [Hocc1 Hheap1].
      destruct (IH t1 heap1 t2 heap2) as (Hr2 & Hocc2 & Hheap2); auto.
      * exact (reach_allocate base N 0 t heap b d ret t1 heap1 Hr Hb Ha).
      * split; [exact Hr2|]. split; [exact Hocc2|].
        intros x Hx. rewrite (Hheap2 x Hx). exact (Hheap1 x Hx).
    + destruct (release t p) as [ret t1] eqn:Hrel. cbn [snd] in Hrun.
      apply (IH t1 heap t2 heap2); auto.
      * exact (reach_release base N 0 t p ret t1 Hr Hrel).
      * rewrite (release_occupied _ _ _ _ _ _ Hwf Hrel). apply filter_In.
        split; [exact Hocc|].
        destruct (Z.eqb_spec (leaf_start lf) p) as [E|]; [|reflexivity].
        exfalso. apply Hnot. left. rewrite E. reflexivity.
Qed.

(** X6.  Round trip of the data: what [allocate] copied to the address it
    returned is read back unchanged after any further series of [allocate]
    and [release] calls that return, as long as none of them releases that
    address.  (The source buffer must not overlap the destination, as
    [memcpy] requires.) *)
Theorem data_survive_until_release (base N : Z) (t : Buddy) (heap : Heap)
        (numBytes data a : Z) (t1 : Buddy) (heap1 : Heap)
        (calls : list Call) (t2 : Buddy) (heap2 : Heap) :
  0 <= N <= 46 -> reachable base N 0 t -> 0 <= numBytes < SIZE_T_MOD ->
  allocate t heap numBytes data = Returns (Some a, t1, heap1) ->
  (data + numBytes <= a \/ a + numBytes <= data) ->
  sizes_in_range calls ->
  ~ In (CallRelease a) calls ->
  run calls t1 heap1 = Returns (t2, heap2) ->
  forall i, 0 <= i < numBytes -> heap2 (a + i) = heap (data + i).
Proof.
  intros HN Hr Hb Ha _ Hsz Hnot Hrun i Hi.
  assert (Hwf : wf base N t) by (apply (reachable_wf base N HN 0); [lia|exact Hr]).
  destruct (allocate_leaves _ _ _ _ _ _ _ _ _ Hwf (proj2 HN) (proj1 Hb) Ha)
    as (pre & post & s & sf & frees & El & El' & _ & _ & _ & _ & Hheap).
  assert (Hocc : In (a, numBytes, sf) (occupied t1)).
  { unfold occupied. apply filter_In. split.
    - rewrite El'. apply in_or_app. right. left. reflexivity.
    - unfold leaf_length. cbn [fst snd].
      destruct (Z.eqb_spec numBytes 0); [lia|reflexivity]. }
  destruct (run_keeps_live_data base N (a, numBytes, sf) HN calls t1 heap1 t2 heap2)
    as (_ & _ & Hkeep); auto.
  - exact (reach_allocate base N 0 t heap numBytes data (Some a) t1 heap1 Hr Hb Ha).
  - rewrite Hkeep by (unfold leaf_start, leaf_length; cbn [fst snd]; lia).
    rewrite Hheap. unfold memcpy.
    destruct (Z.leb_spec a (a + i)), (Z.ltb_spec (a + i) (a + numBytes));
      cbn [andb]; try lia.
    f_equal. lia.
Qed.

Lemma data_survive_until_release_witness :
  match run [CallAllocate 500000 2000000; CallRelease 528384]
            (Split 4096 0 4
               (Split 4096 0 3
                  (Split 4096 0 2 (Leaf 4096 70000 1) (Leaf 135168 0 1))
                  (Leaf 266240 0 2))
               (Leaf 528384 0 3))
            (memcpy heap0 4096 3000000 70000) with
  | Returns r => snd r (4096 + 69999) = heap0 (3000000 + 69999)
  | NoReturn => False
  end.
Proof.
  apply (data_survive_until_release 4096 4 fresh heap0 70000 3000000 4096
           (Split 4096 0 4
                  (Split 4096 0 3
                         (Split 4096 0 2 (Leaf 4096 70000 1) (Leaf 135168 0 1))
                         (Leaf 266240 0 2))
                  (Leaf 528384 0 3))
           (memcpy heap0 4096 3000000 70000)
           [CallAllocate 500000 2000000; CallRelease 528384]
           (Split 4096 0 4
                  (Split 4096 0 3
                         (Split 4096 0 2 (Leaf 4096 70000 1) (Leaf 135168 0 1))
                         (Leaf 266240 0 2))
                  (Leaf 528384 0 3))
           (memcpy (memcpy heap0 4096 3000000 70000) 528384 2000000 500000)).
  - lia.
  - apply reach_new.
  - unfold SIZE_T_MOD. lia.
  - reflexivity.
  - lia.
  - intros b d [E|[E|[]]]; [|discriminate E].
    injection E as <- <-. unfold SIZE_T_MOD. lia.
  - intros [E|[E|[]]]; discriminate E.
  - reflexivity.
  - lia.
Defined.

(** ** The leaves tile the region *)

Lemma sum_capacities_app (l r : list (Z * Z * Z)) :
  sum_capacities (l ++ r) = sum_capacities l + sum_capacities r.
Proof.
  unfold sum_capacities. induction l as [|x l IH]; cbn; [reflexivity|].
  rewrite IH. lia.
Qed.

Lemma wf_tiles (t : Buddy) :
  forall a s,
    wf a s t ->
    sum_capacities (leaves t) = sizeToBytes s
    /\ forall x, a <= x < a + sizeToBytes s ->
                 exists lf, In lf (leaves t) /\ in_block lf x.
Proof.
  induction t as [a0 m0 s0|a0 m0 s0 l IHl r IHr]; intros a s Hwf.
  - cbn [wf] in Hwf. destruct Hwf as (-> & -> & Hs & Hm). split.
    + unfold sum_capacities, leaf_capacity. cbn. lia.
    + intros x Hx. exists (a, m0, s). split; [left; reflexivity|].
      unfold in_block, leaf_start, leaf_capacity. cbn [fst snd]. exact Hx.
  - cbn [wf] in Hwf. destruct Hwf as (-> & -> & Hs & -> & Hl & Hr).
    destruct (IHl _ _ Hl) as [Hsl Hcl]. destruct (IHr _ _ Hr) as [Hsr Hcr].
    pose proof (sizeToBytes_double s Hs) as Hd.
    cbn [leaves]. split.
    + rewrite sum_capacities_app, Hsl, Hsr. lia.
    + intros x Hx.
      destruct (Z.lt_ge_cases x (a + sizeToBytes (s - 1))) as [Hlt|Hge].
      * destruct (Hcl x ltac:(lia)) as (lf & Hin & Hb).
        exists lf. split; [apply in_or_app; left; exact Hin|exact Hb].
      * destruct (Hcr x ltac:(lia)) as (lf & Hin & Hb).
        exists lf. split; [apply in_or_app; right; exact Hin|exact Hb].
Qed.

(** X7.  In every reachable state the unsplit leaves cover the region
    without gaps: their capacities add up to the region size and every
    address of the region lies in the block of some leaf. *)
Theorem leaves_cover_region (base N : Z) (t : Buddy) :
  0 <= N <= 46 -> reachable base N 0 t ->
  sum_capacities (leaves t) = sizeToBytes N
  /\ forall x, base <= x < base + sizeToBytes N ->
               exists lf, In lf (leaves t) /\ in_block lf x.
Proof.
  intros HN Hr. apply (wf_tiles t base N).
  apply (reachable_wf base N HN 0); [lia|exact Hr].
Qed.

Lemma leaves_cover_region_witness :
  sum_capacities (leaves two_blocks) = MAX_MEMORY_OFFSET
  /\ forall x, 4096 <= x < 4096 + MAX_MEMORY_OFFSET ->
               exists lf, In lf (leaves two_blocks) /\ in_block lf x.
Proof.
  apply (leaves_cover_region 4096 4 two_blocks).
  - lia.
  - apply two_blocks_reachable. lia.
Defined.

Lemma wf_leaf_count (t : Buddy) :
  forall a s, wf a s t -> Z.of_nat (length (leaves t)) <= 2 ^ s.
Proof.
  induction t as [a0 m0 s0|a0 m0 s0 l IHl r IHr]; intros a s Hwf.
  - cbn [wf] in Hwf. destruct Hwf as (_ & _ & Hs & _). cbn.
    pose proof (Z.pow_pos_nonneg 2 s ltac:(lia) Hs). lia.
  - cbn [wf] in Hwf. destruct Hwf as (-> & -> & Hs & -> & Hl & Hr).
    cbn [leaves]. rewrite length_app, Nat2Z.inj_add.
    specialize (IHl _ _ Hl). specialize (IHr _ _ Hr).
    replace s with (Z.succ (s - 1)) at 1 by lia.
    rewrite Z.pow_succ_r by lia. lia.
Qed.

(** X8.  A tree of order [N] never has more than [2^N] unsplit leaves, so
    never more than [2^N] occupied ones: 16 in the reference configuration,
    the size of the driver's table of addresses. *)
Theorem at_most_two_pow_N_blocks (base N : Z) (t : Buddy) :
  0 <= N <= 46 -> reachable base N 0 t ->
  Z.of_nat (length (occupied t)) <= Z.of_nat (length (leaves t)) <= 2 ^ N.
Proof.
  intros HN Hr. split.
  - apply Nat2Z.inj_le. unfold occupied. apply filter_length_le.
  - apply (wf_leaf_count t base N).
    apply (reachable_wf base N HN 0); [lia|exact Hr].
Qed.

Lemma at_most_two_pow_N_blocks_witness :
  Z.of_nat (length (occupied two_blocks)) <= Z.of_nat (length (leaves two_blocks)) <= 16.
Proof.
  apply (at_most_two_pow_N_blocks 4096 4 two_blocks).
  - lia.
  - apply two_blocks_reachable. lia.
Defined.

(** ** Alignment *)

Lemma sizeToBytes_divide (s s' : Z) :
  0 <= s' <= s -> (sizeToBytes s' | sizeToBytes s).
Proof.
  intros H. rewrite !sizeToBytes_nonneg by lia. exists (2 ^ (s - s')).
  rewrite <- Z.pow_add_r by lia. f_equal. lia.
Qed.

Lemma wf_aligned (t : Buddy) :
  forall a s lf,
    wf a s t -> In lf (leaves t) ->
    snd lf <= s /\ (leaf_capacity lf | leaf_start lf - a).
Proof.
  induction t as [a0 m0 s0|a0 m0 s0 l IHl r IHr]; intros a s lf Hwf Hin.
  - cbn [wf] in Hwf. destruct Hwf as (-> & -> & _). cbn in Hin.
    destruct Hin as [<-|[]]. unfold leaf_start. cbn [fst snd].
    split; [lia|]. rewrite Z.sub_diag. apply Z.divide_0_r.
  - cbn [wf] in Hwf. destruct Hwf as (-> & -> & Hs & -> & Hl & Hr).
    cbn [leaves] in Hin. apply in_app_or in Hin. destruct Hin as [Hin|Hin].
    + destruct (IHl _ _ _ Hl Hin) as [H1 H2]. split; [lia|exact H2].
    + destruct (IHr _ _ _ Hr Hin) as [H1 H2]. split; [lia|].
      pose proof (wf_leaves_range _ _ _ _ Hr Hin) as (_ & _ & H0 & _).
      replace (leaf_start lf - a)
        with ((leaf_start lf - (a + sizeToBytes (s - 1))) + sizeToBytes (s - 1)) by lia.
      apply Z.divide_add_r; [exact H2|].
      apply sizeToBytes_divide. unfold leaf_capacity. lia.
Qed.

(** X9.  Every block is aligned to its own size: in every reachable state
    the offset of each unsplit leaf from the region's start is a multiple of
    the leaf's capacity. *)
Theorem blocks_are_aligned (base N : Z) (t : Buddy) (lf : Z * Z * Z) :
  0 <= N <= 46 -> reachable base N 0 t -> In lf (leaves t) ->
  (leaf_start lf - base) mod leaf_capacity lf = 0.
Proof.
  intros HN Hr Hin.
  assert (Hwf : wf base N t) by (apply (reachable_wf base N HN 0); [lia|exact Hr]).
  destruct (wf_aligned _ _ _ _ Hwf Hin) as [_ Hdiv].
  pose proof (leaf_capacity_pos _ _ _ _ Hwf Hin).
  apply Z.mod_divide; [lia|exact Hdiv].
Qed.

Lemma blocks_are_aligned_witness :
  (528384 - 4096) mod sizeToBytes 3 = 0.
Proof.
  apply (blocks_are_aligned 4096 4 two_blocks (528384, 500000, 3)).
  - lia.
  - apply two_blocks_reachable. lia.
  - cbn. auto.
Defined.

(** ** The two conversions, composed *)

(** X10.  [bytesToSize] undoes [sizeToBytes] on every order from 0 to 47,
    and [sizeToBytes] after [bytesToSize] rounds a request above half the
    minimum block size up to the next block size, which is less than twice
    the request. *)
Theorem conversions_round_trip (s b : Z) :
  0 <= s <= 47 -> BASE_SIZE / 2 < b <= 2 ^ 63 ->
  bytesToSize (sizeToBytes s) = Returns s
  /\ exists k, bytesToSize b = Returns k
               /\ 0 <= k
               /\ b <= sizeToBytes k < 2 * b.
Proof.
  intros Hs Hb. change (BASE_SIZE / 2) with (2 ^ 15) in Hb.
  split; [apply bytesToSize_sizeToBytes; exact Hs|].
  exists (Z.log2_up b - 16).
  assert (H16 : 16 <= Z.log2_up b).
  { destruct (Z.le_gt_cases 16 (Z.log2_up b)) as [|Hlt]; [assumption|].
    assert (b <= 2 ^ 15) by (apply log2_up_le_iff; lia). lia. }
  split; [apply bytesToSize_log2; lia|]. split; [lia|].
  rewrite sizeToBytes_nonneg by lia.
  replace (16 + (Z.log2_up b - 16)) with (Z.log2_up b) by lia.
  assert (1 < b) by lia.
  pose proof (Z.log2_up_spec b H) as [Hlo Hhi].
  split; [exact Hhi|].
  replace (Z.log2_up b) with (Z.succ (Z.pred (Z.log2_up b))) by lia.
  rewrite Z.pow_succ_r by lia. lia.
Qed.

Lemma conversions_round_trip_witness :
  bytesToSize (sizeToBytes 3) = Returns 3
  /\ exists k, bytesToSize 70000 = Returns k /\ 0 <= k
               /\ 70000 <= sizeToBytes k < 2 * 70000.
Proof.
  apply (conversions_round_trip 3 70000).
  - lia.
  - split; [reflexivity|]. intros H. discriminate H.
Defined.

(** ** When [allocate] returns, and when it returns the null pointer *)

Lemma In_leaves_getNode (t : Buddy) :
  forall a m s, In (a, m, s) (leaves t) -> exists p, getNode t p = Some (Leaf a m s).
Proof.
  induction t as [a0 m0 s0|a0 m0 s0 l IHl r IHr]; intros a m s Hin.
  - cbn in Hin. destruct Hin as [E|[]]. injection E as -> -> ->.
    exists []. reflexivity.
  - cbn [leaves] in Hin. apply in_app_or in Hin. destruct Hin as [Hin|Hin].
    + destruct (IHl _ _ _ Hin) as (p & Hp). exists (L :: p). exact Hp.
    + destruct (IHr _ _ _ Hin) as (p & Hp). exists (R :: p). exact Hp.
Qed.

Lemma check_from_none_iff (t : Buddy) (a s b : Z) :
  wf a s t -> 0 <= b ->
  (check_from (Z.log2_up b - 16) t = None
   <-> forall lf, In lf (leaves t) -> leaf_length lf = 0 -> leaf_capacity lf < b).
Proof.
  intros Hwf Hb. split.
  - intros Hnone [[a1 m1] s1] Hin Hfree.
    unfold leaf_length in Hfree. cbn [fst snd] in Hfree. subst m1.
    pose proof (wf_leaves_range _ _ _ _ Hwf Hin) as (_ & _ & Hs1 & _).
    cbn [snd] in Hs1. unfold leaf_capacity. cbn [snd].
    destruct (Z.lt_ge_cases (sizeToBytes s1) b) as [|Hge]; [assumption|exfalso].
    destruct (In_leaves_getNode _ _ _ _ Hin) as (p & Hp).
    apply (check_from_some (Z.log2_up b - 16) t _ _ _ _ _ Hwf Hp); [|exact Hnone].
    apply fits_iff; lia.
  - intros Hall. destruct (check_from (Z.log2_up b - 16) t) as [p|] eqn:Hc;
      [exfalso|reflexivity].
    destruct (check_from_node _ _ _ Hc) as (a1 & s1 & Hn & Hk).
    pose proof (getNode_leaf_In _ _ _ _ _ Hn) as Hin.
    pose proof (wf_leaves_range _ _ _ _ Hwf Hin) as (_ & _ & Hs1 & _).
    cbn [snd] in Hs1.
    specialize (Hall _ Hin eq_refl). unfold leaf_capacity in Hall. cbn [snd] in Hall.
    apply fits_iff in Hk; lia.
Qed.

(** X11.  In every reachable state [allocate] returns exactly for the
    requests of at most [2^63] bytes (so for every size the driver admits),
    and it then returns the null pointer exactly when no unsplit leaf with
    [memLength = 0] has a capacity of at least the request; the free bytes
    of several smaller leaves do not help. *)
Theorem allocate_returns_and_fails_iff (base N : Z) (t : Buddy) (heap : Heap)
        (numBytes data : Z) :
  0 <= N <= 46 -> reachable base N 0 t -> 0 <= numBytes < SIZE_T_MOD ->
  ((exists res, allocate t heap numBytes data = Returns res) <-> numBytes <= 2 ^ 63)
  /\ (numBytes <= 2 ^ 63 ->
      (allocate t heap numBytes data = Returns (None, t, heap)
       <-> forall lf, In lf (leaves t) -> leaf_length lf = 0 ->
                      leaf_capacity lf < numBytes)).
Proof.
  intros HN Hr Hb.
  assert (Hwf : wf base N t) by (apply (reachable_wf base N HN 0); [lia|exact Hr]).
  split.
  - split.
    + intros (res & Hrun). exact (allocate_returns_bound _ _ _ _ _ Hrun).
    + intros Hle. rewrite (allocate_eq _ _ _ _ _ _ Hwf (proj2 HN)) by lia.
      destruct (check_from (Z.log2_up numBytes - 16) t) as [p|] eqn:Hc; [|eauto].
      destruct (check_from_node _ _ _ Hc) as (a1 & s1 & Hn & _).
      rewrite Hn. eauto.
  - intros Hle. rewrite <- (check_from_none_iff t base N numBytes Hwf (proj1 Hb)).
    rewrite (allocate_eq _ _ _ _ _ _ Hwf (proj2 HN)) by lia.
    destruct (check_from (Z.log2_up numBytes - 16) t) as [p|] eqn:Hc.
    + destruct (check_from_node _ _ _ Hc) as (a1 & s1 & Hn & _). rewrite Hn.
      split; discriminate.
    + split; reflexivity.
Qed.

Lemma allocate_returns_and_fails_iff_witness :
  allocate two_blocks heap0 300000 0 = Returns (None, two_blocks, heap0)
  <-> forall lf, In lf (leaves two_blocks) -> leaf_length lf = 0 ->
                 leaf_capacity lf < 300000.
Proof.
  apply (allocate_returns_and_fails_iff 4096 4 two_blocks heap0 300000 0).
  - lia.
  - apply two_blocks_reachable. lia.
  - unfold SIZE_T_MOD. lia.
  - lia.
Defined.

(** ** How many leaves a call can add *)

Lemma place_leaf_count (numBytes : Z) (k : nat) :
  forall a s,
    1 <= Z.of_nat (length (leaves (place k a s numBytes))) <= 1 + Z.max 0 s.
Proof.
  induction k as [|k IH]; intros a s; cbn [place].
  - cbn [leaves length]. lia.
  - destruct (Z.gtb_spec (sizeToBytes s) (numBytes * 2)); cbn [andb];
      [|cbn [leaves length]; lia].
    destruct (Z.gtb_spec s 0); [|cbn [leaves length]; lia].
    cbn [leaves]. rewrite length_app, Nat2Z.inj_add. cbn [length].
    specialize (IH a (s - 1)). lia.
Qed.

Lemma release_leaf_count (t : Buddy) :
  forall a s p ret t',
    wf a s t -> release t p = (ret, t') ->
    (length (leaves t') <= length (leaves t))%nat.
Proof.
  induction t as [a0 m0 s0|a0 m0 s0 l IHl r IHr]; intros a s p ret t' Hwf Hrel.
  - cbn in Hrel. destruct (p =? a0); injection Hrel as <- <-; cbn; lia.
  - cbn [wf] in Hwf. destruct Hwf as (-> & -> & Hs & -> & Hl & Hr).
    destruct (release_Split_children _ _ _ _ _ _ _ _ (proj1 (wf_root _ _ _ Hl)) Hrel)
      as (l' & r' & Hl' & Hr' & ->).
    assert (length (leaves l') <= length (leaves l))%nat
      by (destruct Hl' as [->|[b Hb]]; eauto).
    assert (length (leaves r') <= length (leaves r))%nat
      by (destruct Hr' as [->|[b Hb]]; eauto).
    destruct (merge_condition l' r'); cbn [leaves length]; rewrite ?length_app;
      [|lia].
    assert (1 <= length (leaves l))%nat.
    { clear. induction l; cbn [leaves length]; [lia|rewrite length_app; lia]. }
    lia.
Qed.

(** X12.  One [allocate] call splits at most [N] nodes (the number of leaves
    grows by at most [N] and never shrinks), and a [release] call splits
    none: it never adds a leaf. *)
Theorem calls_bound_leaf_count (base N : Z) (t : Buddy) :
  0 <= N <= 46 -> reachable base N 0 t ->
  (forall heap numBytes data ret t' heap',
      0 <= numBytes ->
      allocate t heap numBytes data = Returns (ret, t', heap') ->
      Z.of_nat (length (leaves t))
      <= Z.of_nat (length (leaves t'))
      <= Z.of_nat (length (leaves t)) + N)
  /\ (forall p ret t',
         release t p = (ret, t') ->
         (length (leaves t') <= length (leaves t))%nat).
Proof.
  intros HN Hr.
  assert (Hwf : wf base N t) by (apply (reachable_wf base N HN 0); [lia|exact Hr]).
  split.
  - intros heap numBytes data ret t' heap' Hb Hrun.
    destruct (allocate_cases _ _ _ _ _ _ _ _ _ Hwf (proj2 HN) Hb Hrun)
      as [(_ & _ & -> & _)|(p & a & s & _ & Hn & Hs & _ & _ & -> & _)]; [lia|].
    destruct (leaves_modify _ _ _ Hn) as (pre & post & El & Hf).
    rewrite Hf, El. cbn [leaves]. rewrite !length_app, !Nat2Z.inj_add. cbn [length].
    pose proof (place_leaf_count numBytes (Z.to_nat s) a s). lia.
  - intros p ret t' Hrel. exact (release_leaf_count _ _ _ _ _ _ Hwf Hrel).
Qed.

Lemma calls_bound_leaf_count_witness :
  (length (leaves (Split 4096 0 4 (Leaf 4096 0 3) (Leaf 528384 500000 3)))
   <= length (leaves two_blocks))%nat.
Proof.
  apply (proj2 (calls_bound_leaf_count 4096 4 two_blocks
                  ltac:(lia) (two_blocks_reachable 0 ltac:(lia)))
               4096 true).
  reflexivity.
Defined.

(** ** The diagnostic print *)

Lemma nonzero_lines_app (o1 o2 : list Output) :
  nonzero_lines (o1 ++ o2) = nonzero_lines o1 ++ nonzero_lines o2.
Proof. apply filter_app. Qed.

Lemma printTree_nonzero (t : Buddy) :
  forall a s w,
    wf a s t ->
    nonzero_lines (printTree t w)
    = map (fun lf => Line (w + 7 * (s - snd lf)) (leaf_length lf)) (occupied t).
Proof.
  induction t as [a0 m0 s0|a0 m0 s0 l IHl r IHr]; intros a s w Hwf.
  - cbn [wf] in Hwf. destruct Hwf as (-> & -> & _).
    cbn [printTree]. rewrite nonzero_lines_app.
    replace (nonzero_lines (if w =? 0 then [Header] else [])) with (@nil Output)
      by (destruct (w =? 0); reflexivity).
    unfold occupied, leaf_length. cbn [leaves filter fst snd nonzero_lines app].
    destruct (m0 =? 0); cbn [negb map fst snd]; [reflexivity|].
    f_equal. f_equal. lia.
  - cbn [wf] in Hwf. destruct Hwf as (-> & -> & Hs & -> & Hl & Hr).
    cbn [printTree]. rewrite !nonzero_lines_app.
    replace (nonzero_lines (if w =? 0 then [Header] else [])) with (@nil Output)
      by (destruct (w =? 0); reflexivity).
    rewrite (IHl _ _ _ Hl), (IHr _ _ _ Hr), occupied_Split, map_app.
    cbn [nonzero_lines filter Z.eqb negb app].
    f_equal; apply map_ext; intros lf; f_equal; lia.
Qed.

Lemma leaves_nonempty (t : Buddy) : (1 <= length (leaves t))%nat.
Proof.
  induction t as [a0 m0 s0|a0 m0 s0 l IHl r IHr]; cbn [leaves length]; [lia|].
  rewrite length_app. lia.
Qed.

Lemma printTree_length (t : Buddy) :
  forall w, 0 <= w ->
    length (printTree t w)
    = ((if (w =? 0)%Z then 1 else 0) + (2 * length (leaves t) - 1))%nat.
Proof.
  induction t as [a0 m0 s0|a0 m0 s0 l IHl r IHr]; intros w Hw; cbn [printTree].
  - destruct (w =? 0); reflexivity.
  - rewrite !length_app, IHl, IHr by lia. cbn [leaves length]. rewrite length_app.
    destruct (Z.eqb_spec (w + 7) 0); [lia|].
    pose proof (leaves_nonempty l). pose proof (leaves_nonempty r).
    destruct (w =? 0); cbn [length]; lia.
Qed.

(** X13.  In every reachable state the lines of [printTree] that show a
    length other than 0 are exactly the occupied leaves, in address order,
    each indented by 7 columns per order below the root (so under the column
    of its order in the helper text); the print starts with the helper text
    and has one line per node. *)
Theorem printTree_shows_occupied (base N : Z) (t : Buddy) :
  0 <= N <= 46 -> reachable base N 0 t ->
  nonzero_lines (printTree t 0)
  = map (fun lf => Line (7 * (N - snd lf)) (leaf_length lf)) (occupied t)
  /\ hd_error (printTree t 0) = Some Header
  /\ length (printTree t 0) = (2 * length (leaves t))%nat.
Proof.
  intros HN Hr.
  assert (Hwf : wf base N t) by (apply (reachable_wf base N HN 0); [lia|exact Hr]).
  split; [exact (printTree_nonzero t base N 0 Hwf)|]. split.
  - destruct t; reflexivity.
  - rewrite printTree_length by lia. pose proof (leaves_nonempty t).
    cbn [Z.eqb]. lia.
Qed.

Lemma printTree_shows_occupied_witness :
  nonzero_lines (printTree two_blocks 0) = [Line 21 70000; Line 7 500000].
Proof.
  apply (printTree_shows_occupied 4096 4 two_blocks).
  - lia.
  - apply two_blocks_reachable. lia.
Defined.

(** ** The driver's table *)

Lemma set_nth_length (k : nat) (v : Z) (l : list Z) :
  length (set_nth k v l) = length l.
Proof.
  unfold set_nth. rewrite <- (firstn_skipn k l) at 3. rewrite !length_app.
  f_equal. destruct (skipn k l); reflexivity.
Qed.

Lemma set_nth_nth (k : nat) (v : Z) (l : list Z) (i : nat) :
  (k < length l)%nat ->
  nth i (set_nth k v l) 0 = if (i =? k)%nat then v else nth i l 0.
Proof.
  revert l i. induction k as [|k IH]; intros l i Hk.
  - destruct l as [|x l]; [cbn in Hk; lia|]. destruct i; reflexivity.
  - destruct l as [|x l]; [cbn in Hk; lia|]. cbn in Hk.
    destruct i as [|i]; [reflexivity|].
    change (set_nth (S k) v (x :: l)) with (x :: set_nth k v l).
    cbn [nth]. rewrite IH by lia. reflexivity.
Qed.

Lemma save_loop_spec (memLocations : list Z) (tempLocation : Z) :
  forall (fuel k : nat),
    (17 <= fuel + k)%nat ->
    (forall i, (i < k)%nat -> nth i memLocations 0 <> 0) ->
    (exists k', (k <= k' < 16)%nat
                /\ nth k' memLocations 0 = 0
                /\ (forall i, (i < k')%nat -> nth i memLocations 0 <> 0)
                /\ save_loop fuel memLocations k tempLocation
                   = set_nth k' tempLocation memLocations)
    \/ ((forall i, (i < 16)%nat -> nth i memLocations 0 <> 0)
        /\ save_loop fuel memLocations k tempLocation = memLocations).
Proof.
  induction fuel as [|fuel IH]; intros k Hf Hfull; cbn [save_loop].
  - right. split; [|reflexivity]. intros i Hi. apply Hfull. lia.
  - destruct (Nat.ltb_spec k 16) as [Hlt|Hge].
    + destruct (Z.eqb_spec (nth k memLocations 0) 0) as [E|E].
      * left. exists k. repeat split; auto; lia.
      * destruct (IH (S k)) as [(k' & Hk' & H0 & Hbefore & Hres)|[Hall Hres]].
        -- lia.
        -- intros i Hi. destruct (Nat.eq_dec i k) as [->|]; [exact E|].
           apply Hfull. lia.
        -- left. exists k'. repeat split; auto; lia.
        -- right. auto.
    + right. split; [|reflexivity]. intros i Hi. apply Hfull. lia.
Qed.

(** X14.  The driver saves a returned address in the first empty slot of its
    table and touches no other slot; when none of the 16 slots is empty the
    table stays as it was, so that address is not recorded anywhere. *)
Theorem save_location_first_empty (memLocations : list Z) (tempLocation : Z) :
  length memLocations = 16%nat ->
  (exists k, (k < 16)%nat
             /\ nth k memLocations 0 = 0
             /\ (forall i, (i < k)%nat -> nth i memLocations 0 <> 0)
             /\ forall i, nth i (save_location memLocations tempLocation) 0
                          = if (i =? k)%nat then tempLocation
                            else nth i memLocations 0)
  \/ ((forall i, (i < 16)%nat -> nth i memLocations 0 <> 0)
      /\ save_location memLocations tempLocation = memLocations).
Proof.
  intros Hlen. unfold save_location.
  destruct (save_loop_spec memLocations tempLocation 17 0)
    as [(k & Hk & H0 & Hbefore & Hres)|[Hall Hres]]; [lia|intros i Hi; lia| |].
  - left. exists k. repeat split; auto; try lia.
    intros i. rewrite Hres. apply set_nth_nth. lia.
  - right. auto.
Qed.

Lemma save_location_first_empty_witness :
  nth 1 (save_location [4096; 0; 0; 528384; 0; 0; 0; 0; 0; 0; 0; 0; 0; 0; 0; 0] 135168) 0
  = 135168.
Proof.
  destruct (save_location_first_empty
              [4096; 0; 0; 528384; 0; 0; 0; 0; 0; 0; 0; 0; 0; 0; 0; 0] 135168)
    as [(k & Hk & H0 & Hbefore & Hres)|[Hall _]].
  - reflexivity.
  - reflexivity.
  - exfalso. apply (Hall 1%nat); [lia|reflexivity].
Defined.

(** X15.  The driver accepts an index for deallocation exactly when it lies
    between 1 and 15 and its slot holds an address.  Slot 0 is never
    accepted, although an address saved while slot 0 is empty goes to slot
    0: that block cannot be released through the driver. *)
Theorem index_zero_never_released (memLocations : list Z) (j tempLocation : Z) :
  length memLocations = 16%nat -> 0 <= j ->
  (index_refused memLocations j = Returns false
   <-> 1 <= j <= 15 /\ nth (Z.to_nat j) memLocations 0 <> 0)
  /\ index_refused memLocations 0 = Returns true
  /\ (nth 0 memLocations 0 = 0 ->
      nth 0 (save_location memLocations tempLocation) 0 = tempLocation
      /\ index_refused (save_location memLocations tempLocation) 0 = Returns true).
Proof.
  intros Hlen Hj.
  assert (Hzero : forall ml, index_refused ml 0 = Returns true).
  { intros ml. unfold index_refused. cbn [Z.gtb Z.ltb Z.compare Z.to_nat].
    destruct (nth 0 ml 0 =? 0); reflexivity. }
  split; [|split].
  - unfold index_refused.
    destruct (Z.gtb_spec j 15) as [H15|H15]; [split; [discriminate|lia]|].
    destruct (Z.ltb_spec j 0); [lia|].
    destruct (Z.eqb_spec (nth (Z.to_nat j) memLocations 0) 0) as [E|E];
      [split; [discriminate|intros [_ H']; contradiction]|].
    destruct (Z.ltb_spec j 1) as [H1|H1]; split.
    + discriminate.
    + lia.
    + intros _. split; [lia|exact E].
    + reflexivity.
  - apply Hzero.
  - intros H0. split; [|apply Hzero].
    unfold save_location. cbn [save_loop Nat.ltb Nat.leb].
    rewrite H0. cbn [Z.eqb].
    destruct memLocations as [|x rest]; [discriminate Hlen|reflexivity].
Qed.

Lemma index_zero_never_released_witness :
  index_refused [4096; 0; 0; 528384; 0; 0; 0; 0; 0; 0; 0; 0; 0; 0; 0; 0] 3
  = Returns false
  <-> 1 <= 3 <= 15
      /\ nth (Z.to_nat 3) [4096; 0; 0; 528384; 0; 0; 0; 0; 0; 0; 0; 0; 0; 0; 0; 0] 0
         <> 0.
Proof.
  apply (index_zero_never_released
           [4096; 0; 0; 528384; 0; 0; 0; 0; 0; 0; 0; 0; 0; 0; 0; 0] 3 0).
  - reflexivity.
  - lia.
Defined.

(** ** Placement at the lowest suitable address *)

Lemma check_from_lowest (minSize : Z) (t : Buddy) :
  forall a0 s0 p a s,
    wf a0 s0 t -> check_from minSize t = Some p ->
    getNode t p = Some (Leaf a 0 s) ->
    forall lf, In lf (leaves t) -> leaf_length lf = 0 -> minSize <= snd lf ->
               a <= leaf_start lf.
Proof.
  induction t as [a1 m1 s1|a1 m1 s1 l IHl r IHr];
    intros a0 s0 p a s Hwf Hc Hn lf Hin Hfree Hk.
  - cbn in Hin. destruct Hin as [<-|[]].
    destruct p as [|d p]; [|destruct d; discriminate].
    injection Hn as -> _ _. unfold leaf_start. cbn. lia.
  - cbn [wf] in Hwf. destruct Hwf as (-> & -> & Hs & -> & Hl & Hr).
    cbn [check_from] in Hc.
    destruct ((getSize (Split a0 0 s0 l r) <? minSize)
              || negb (getLength (Split a0 0 s0 l r) =? 0)); [discriminate|].
    cbn [leaves] in Hin. apply in_app_or in Hin.
    destruct (check_from minSize l) as [pl|] eqn:Ecl.
    + injection Hc as <-. cbn in Hn. destruct Hin as [Hin|Hin].
      * exact (IHl _ _ _ _ _ Hl eq_refl Hn lf Hin Hfree Hk).
      * pose proof (wf_leaves_range _ _ _ _ Hl (getNode_leaf_In _ _ _ _ _ Hn))
          as (_ & Hhi & Hs' & _).
        pose proof (wf_leaves_range _ _ _ _ Hr Hin) as (Hlo & _).
        unfold leaf_start, leaf_capacity in Hhi. cbn [fst snd] in Hhi, Hs'.
        pose proof (sizeToBytes_pos s Hs'). lia.
    + destruct (check_from minSize r) as [pr|] eqn:Ecr; [|discriminate].
      injection Hc as <-. cbn in Hn. destruct Hin as [Hin|Hin].
      * exfalso. destruct lf as [[al ml] sl].
        unfold leaf_length in Hfree. cbn [fst snd] in Hfree, Hk. subst ml.
        destruct (In_leaves_getNode _ _ _ _ Hin) as (q & Hq).
        exact (check_from_some minSize l _ _ _ _ _ Hl Hq Hk Ecl).
      * exact (IHr _ _ _ _ _ Hr eq_refl Hn lf Hin Hfree Hk).
Qed.

(** X16.  [allocate] places a block at the lowest suitable address: the
    address it returns is not above the start of any unsplit leaf that was
    free and large enough for the request. *)
Theorem lowest_address_first (base N : Z) (t : Buddy) (heap : Heap)
        (numBytes data a : Z) (t' : Buddy) (heap' : Heap) :
  0 <= N <= 46 -> reachable base N 0 t -> 0 <= numBytes ->
  allocate t heap numBytes data = Returns (Some a, t', heap') ->
  forall lf, In lf (leaves t) -> leaf_length lf = 0 ->
             numBytes <= leaf_capacity lf -> a <= leaf_start lf.
Proof.
  intros HN Hr Hb Hrun lf Hin Hfree Hcap.
  assert (Hwf : wf base N t) by (apply (reachable_wf base N HN 0); [lia|exact Hr]).
  destruct (allocate_cases _ _ _ _ _ _ _ _ _ Hwf (proj2 HN) Hb Hrun)
    as [(_ & E & _)|(p & a1 & s & Hc & Hn & _ & _ & E & _)]; [discriminate|].
  injection E as <-.
  pose proof (wf_leaves_range _ _ _ _ Hwf Hin) as (_ & _ & Hs & _).
  apply (check_from_lowest _ _ _ _ _ _ _ Hwf Hc Hn lf Hin Hfree).
  apply fits_iff; [exact Hs|exact Hb|exact Hcap].
Qed.

Lemma lowest_address_first_witness :
  135168 <= leaf_start (266240, 0, 2).
Proof.
  apply (lowest_address_first 4096 4 two_blocks heap0 100000 0 135168
           (Split 4096 0 4
                  (Split 4096 0 3
                         (Split 4096 0 2 (Leaf 4096 70000 1) (Leaf 135168 100000 1))
                         (Leaf 266240 0 2))
                  (Leaf 528384 500000 3))
           (memcpy heap0 135168 0 100000)).
  - lia.
  - apply two_blocks_reachable. lia.
  - lia.
  - reflexivity.
  - cbn. auto.
  - reflexivity.
  - intros H. discriminate H.
Defined.

(** ** The sizes the driver passes on *)

(** X17.  Every size the driver lets through (between 1 and
    [MAX_MEMORY_OFFSET]) is one on which [allocate] returns, and the state
    it leaves is again one reached with requests of at least one byte, hence
    maximally merged: under the driver the invariant of C10 always holds. *)
Theorem driver_requests_are_safe (base N : Z) (t : Buddy) (heap : Heap) (j test : Z) :
  0 <= N <= 46 -> reachable base N 1 t -> size_refused j = false ->
  exists ret t' heap',
    allocate t heap j test = Returns (ret, t', heap')
    /\ reachable base N 1 t'
    /\ merged t'.
Proof.
  intros HN Hr Hj. unfold size_refused, MAX_MEMORY_OFFSET in Hj.
  apply orb_false_elim in Hj as [H1 H2].
  apply Z.ltb_ge in H1. rewrite Z.gtb_ltb in H2. apply Z.ltb_ge in H2.
  assert (Hwf : wf base N t) by (apply (reachable_wf base N HN 1); [lia|exact Hr]).
  assert (Hret : exists res, allocate t heap j test = Returns res).
  { rewrite (allocate_eq _ _ _ _ _ _ Hwf (proj2 HN)) by lia.
    destruct (check_from (Z.log2_up j - 16) t) as [p|] eqn:Hc; [|eauto].
    destruct (check_from_node _ _ _ Hc) as (a1 & s1 & Hn & _).
    rewrite Hn. eauto. }
  destruct Hret as ([[ret t'] heap'] & Hrun).
  exists ret, t', heap'. split; [exact Hrun|].
  assert (Hr' : reachable base N 1 t').
  { apply (reach_allocate base N 1 t heap j test ret t' heap' Hr); [|exact Hrun].
    unfold SIZE_T_MOD. lia. }
  split; [exact Hr'|]. exact (reachable_merged base N HN t' Hr').
Qed.

Lemma driver_requests_are_safe_witness :
  exists ret t' heap',
    allocate two_blocks heap0 1048576 0 = Returns (ret, t', heap')
    /\ reachable 4096 4 1 t'
    /\ merged t'.
Proof.
  apply (driver_requests_are_safe 4096 4 two_blocks heap0 1048576 0).
  - lia.
  - apply two_blocks_reachable. lia.
  - reflexivity.
Defined.
